(** * Zero-crossing estimation in the MEP-regime-ABM plotting scripts

    The scripts under [scripts/] locate the zeros of a sampled curve by a
    scan over consecutive samples: an exactly-zero sample is reported at its
    own abscissa, a strict sign flip is reported at the zero of the chord.
    The scan exists in three flavours:

    - ALL   : [zero_crossings_sigmaCumEnd_RMST.zero_crossings_linear_interp]
    - FIRST : [zero_crossings_AE_RMST.first_zero_crossing_linear],
              [make_fig23.first_zero_crossing_linear],
              [make_fig6.first_zero_crossing] and the inline loop of
              [zero_crossing_AE_closeup]
    - LAST  : [make_fig7.last_zero_crossing]

    The embedding keeps the shape of the Python code: two arrays [x] and [y]
    indexed by position, a [for i in range(len(y) - 1)] loop, and the
    arithmetic of the element type behind an interface, so that every
    function can be run both on exact rationals (the reals of the
    specification) and on IEEE binary64 (the [dtype=float] arrays the scripts
    build). *)

From Stdlib Require Import List ZArith QArith Qminmax Bool Lia Lqa Sorted.
From Stdlib Require Import Floats.
Import ListNotations.

Set Warnings "-inexact-float".

(** ** Python outcomes *)

(** A call either returns a value or raises.  Two exceptions matter for the
    scan: an index outside an array, and a division by zero. *)
Inductive result (T : Type) : Type :=
| Ok (v : T)
| IndexError
| ZeroDivisionError.

Arguments Ok {T} v.
Arguments IndexError {T}.
Arguments ZeroDivisionError {T}.

Definition bind {T U : Type} (r : result T) (k : T -> result U) : result U :=
  match r with
  | Ok v => k v
  | IndexError => IndexError
  | ZeroDivisionError => ZeroDivisionError
  end.

Declare Scope py_scope.
Delimit Scope py_scope with py.
Notation "v <- r ;; k" := (bind r (fun v => k))
  (at level 61, r at next level, right associativity) : py_scope.
Open Scope py_scope.

(** ** The arithmetic of array elements *)

(** The operations the scan applies to elements.  [ndiv] answers [None]
    where the quotient is undefined. *)
Class Arith (A : Type) : Type := {
  nzero : A;
  neqb : A -> A -> bool;
  nltb : A -> A -> bool;
  nleb : A -> A -> bool;
  nadd : A -> A -> A;
  nsub : A -> A -> A;
  nmul : A -> A -> A;
  nopp : A -> A;
  ndiv : A -> A -> option A
}.

Declare Scope num_scope.
Delimit Scope num_scope with num.
Notation "0" := nzero : num_scope.
Infix "+" := nadd : num_scope.
Infix "-" := nsub : num_scope.
Infix "*" := nmul : num_scope.
Notation "- a" := (nopp a) : num_scope.
Infix "=?" := neqb : num_scope.
Infix "<?" := nltb : num_scope.
Infix "<=?" := nleb : num_scope.

(** [a / b] inside a Python expression. *)
Definition divide {A} `{Arith A} (a b : A) : result A :=
  match ndiv a b with
  | Some q => Ok q
  | None => ZeroDivisionError
  end.

(** Exact rationals, the reals of the specification: the quotient by zero
    is undefined.  The scripts themselves compute on [binary64_arith]. *)
#[export] Instance Q_arith : Arith Q := {|
  nzero := 0%Q;
  neqb := Qeq_bool;
  nltb := fun a b => negb (Qle_bool b a);
  nleb := Qle_bool;
  nadd := Qplus;
  nsub := Qminus;
  nmul := Qmult;
  nopp := Qopp;
  ndiv := fun a b => if Qeq_bool b 0 then None else Some (Qdiv a b)
|}.

(** IEEE binary64, the element type of the numpy arrays: comparisons are the
    IEEE ones (false on NaN, [-0 == 0]), and a division never raises, it
    yields an infinity or a NaN. *)
#[export] Instance binary64_arith : Arith float := {|
  nzero := PrimFloat.zero;
  neqb := PrimFloat.eqb;
  nltb := PrimFloat.ltb;
  nleb := PrimFloat.leb;
  nadd := PrimFloat.add;
  nsub := PrimFloat.sub;
  nmul := PrimFloat.mul;
  nopp := PrimFloat.opp;
  ndiv := fun a b => Some (PrimFloat.div a b)
|}.

(** binary64 with the division of Python's own [float], which raises on a
    zero divisor.  The scripts do not run on it: it serves to state that
    they never divide by zero. *)
Definition python_float_arith : Arith float := {|
  nzero := PrimFloat.zero;
  neqb := PrimFloat.eqb;
  nltb := PrimFloat.ltb;
  nleb := PrimFloat.leb;
  nadd := PrimFloat.add;
  nsub := PrimFloat.sub;
  nmul := PrimFloat.mul;
  nopp := PrimFloat.opp;
  ndiv := fun a b =>
            if PrimFloat.eqb b PrimFloat.zero then None
            else Some (PrimFloat.div a b)
|}.

(** ** Arrays and loops *)

(** [a[i]]: a negative index counts from the end, anything outside the array
    raises. *)
Definition getitem {T} (a : list T) (i : Z) : result T :=
  let n := Z.of_nat (length a) in
  let k := if (i <? 0)%Z then (i + n)%Z else i in
  if ((0 <=? k)%Z && (k <? n)%Z)%bool then
    match nth_error a (Z.to_nat k) with
    | Some v => Ok v
    | None => IndexError
    end
  else IndexError.

(** [len(a)] *)
Definition len {T} (a : list T) : Z := Z.of_nat (length a).

(** [range(n)]: empty when [n <= 0]. *)
Definition range (n : Z) : list Z := map Z.of_nat (seq 0 (Z.to_nat n)).

(** A series of samples and its two columns. *)
Definition xs {A} (s : list (A * A)) : list A := map fst s.
Definition ys {A} (s : list (A * A)) : list A := map snd s.

(** ** scripts/zero_crossings_sigmaCumEnd_RMST.py *)
Module zero_crossings_sigmaCumEnd_RMST.
Section Scan.
Context {A : Type} `{Arith A}.

(** The body of [for i in ...], with [out] threaded through; [idx] holds
    the indices still to visit.  [float(x0)] leaves an array element as it
    is and is not written. *)
Fixpoint scan_loop (x y : list A) (idx : list Z) (out : list (A * Z))
  : result (list (A * Z)) :=
  match idx with
  | [] => Ok out
  | i :: rest =>
      yi <- getitem y i ;;
      yj <- getitem y (i + 1) ;;
      xi <- getitem x i ;;
      xj <- getitem x (i + 1) ;;
      if (yi =? 0)%num then
        scan_loop x y rest (out ++ [(xi, i)])
      else if (yi * yj <? 0)%num then
        q <- divide ((xj - xi) * (- yi))%num (yj - yi)%num ;;
        let x0 := (xi + q)%num in
        scan_loop x y rest (out ++ [(x0, i)])
      else
        scan_loop x y rest out
  end.

Definition zero_crossings_linear_interp (x y : list A)
  : result (list (A * Z)) :=
  scan_loop x y (range (len y - 1)) [].
End Scan.
End zero_crossings_sigmaCumEnd_RMST.

(** ** scripts/zero_crossings_AE_RMST.py *)
Module zero_crossings_AE_RMST.
Section Scan.
Context {A : Type} `{Arith A}.

Fixpoint first_loop (x y : list A) (idx : list Z) : result (option A) :=
  match idx with
  | [] => Ok None
  | i :: rest =>
      yi <- getitem y i ;;
      yj <- getitem y (i + 1) ;;
      xi <- getitem x i ;;
      xj <- getitem x (i + 1) ;;
      if (yi =? 0)%num then
        Ok (Some xi)
      else if (yi * yj <? 0)%num then
        q <- divide ((xj - xi) * (- yi))%num (yj - yi)%num ;;
        Ok (Some (xi + q)%num)
      else
        first_loop x y rest
  end.

Definition first_zero_crossing_linear (x y : list A) : result (option A) :=
  first_loop x y (range (len y - 1)).
End Scan.
End zero_crossings_AE_RMST.

(** ** scripts/make_fig23.py *)
Module make_fig23.
Section Scan.
Context {A : Type} `{Arith A}.

Fixpoint first_loop (x y : list A) (idx : list Z) : result (option A) :=
  match idx with
  | [] => Ok None
  | i :: rest =>
      yi <- getitem y i ;;
      yj <- getitem y (i + 1) ;;
      xi <- getitem x i ;;
      xj <- getitem x (i + 1) ;;
      if (yi =? 0)%num then
        Ok (Some xi)
      else if (yi * yj <? 0)%num then
        q <- divide ((xj - xi) * (- yi))%num (yj - yi)%num ;;
        Ok (Some (xi + q)%num)
      else
        first_loop x y rest
  end.

Definition first_zero_crossing_linear (x y : list A) : result (option A) :=
  first_loop x y (range (len y - 1)).
End Scan.
End make_fig23.

(** ** scripts/make_fig6.py *)
Module make_fig6.
Section Scan.
Context {A : Type} `{Arith A}.

(** [np.asarray(a, dtype=float)] on an array that already holds floats. *)
Definition asarray (a : list A) : list A := a.

Fixpoint first_loop (x y : list A) (idx : list Z) : result (option A) :=
  match idx with
  | [] => Ok None
  | i :: rest =>
      yi <- getitem y i ;;
      yj <- getitem y (i + 1) ;;
      xi <- getitem x i ;;
      xj <- getitem x (i + 1) ;;
      if (yi =? 0)%num then
        Ok (Some xi)
      else if (yi * yj <? 0)%num then
        q <- divide ((xj - xi) * (- yi))%num (yj - yi)%num ;;
        Ok (Some (xi + q)%num)
      else
        first_loop x y rest
  end.

Definition first_zero_crossing (x y : list A) : result (option A) :=
  let x := asarray x in
  let y := asarray y in
  first_loop x y (range (len y - 1)).
End Scan.
End make_fig6.

(** ** scripts/zero_crossing_AE_closeup.py *)
Module zero_crossing_AE_closeup.
Section Scan.
Context {A : Type} `{Arith A}.

(** The inline loop: [zc] is assigned and the loop left by [break]. *)
Fixpoint zc_loop (x y : list A) (idx : list Z) (zc : option A)
  : result (option A) :=
  match idx with
  | [] => Ok zc
  | i :: rest =>
      yi <- getitem y i ;;
      yj <- getitem y (i + 1) ;;
      xi <- getitem x i ;;
      xj <- getitem x (i + 1) ;;
      if (yi =? 0)%num then
        let zc := Some xi in Ok zc
      else if (yi * yj <? 0)%num then
        q <- divide ((xj - xi) * (- yi))%num (yj - yi)%num ;;
        let zc := Some (xi + q)%num in Ok zc
      else
        zc_loop x y rest zc
  end.

(** The value of [zc] after the loop, from [zc = None] before it. *)
Definition zc_scan (x y : list A) : result (option A) :=
  zc_loop x y (range (len y - 1)) None.
End Scan.
End zero_crossing_AE_closeup.

(** ** scripts/make_fig7.py *)
Module make_fig7.
Section Scan.
Context {A : Type} `{Arith A}.

Definition asarray (a : list A) : list A := a.

Fixpoint last_loop (x y : list A) (idx : list Z) (zc : option A)
  : result (option A) :=
  match idx with
  | [] => Ok zc
  | i :: rest =>
      yi <- getitem y i ;;
      yj <- getitem y (i + 1) ;;
      xi <- getitem x i ;;
      xj <- getitem x (i + 1) ;;
      if (yi =? 0)%num then
        last_loop x y rest (Some xi)
      else if (yi * yj <? 0)%num then
        q <- divide ((xj - xi) * (- yi))%num (yj - yi)%num ;;
        last_loop x y rest (Some (xi + q)%num)
      else
        last_loop x y rest zc
  end.

Definition last_zero_crossing (x y : list A) : result (option A) :=
  let x := asarray x in
  let y := asarray y in
  last_loop x y (range (len y - 1)) None.
End Scan.
End make_fig7.

(** ** Vocabulary of the specification *)
Section Vocabulary.
Context {A : Type} `{Arith A}.

(** Strictly opposite signs, both values nonzero. *)
Definition opposite_sign (a b : A) : bool :=
  ((a <? 0)%num && (0 <? b)%num) || ((0 <? a)%num && (b <? 0)%num).

(** Both values nonzero, on the same side of zero. *)
Definition same_sign_nonzero (a b : A) : bool :=
  negb (a =? 0)%num && negb (b =? 0)%num &&
  (((a <? 0)%num && (b <? 0)%num) || ((0 <? a)%num && (0 <? b)%num)).


(** The last element of a list, if any. *)
Fixpoint last_error {T} (l : list T) : option T :=
  match l with
  | [] => None
  | a :: tl =>
      match tl with
      | [] => Some a
      | _ :: _ => last_error tl
      end
  end.

(** The abscissa of the first and of the last crossing of a list. *)
Definition first_x (out : list (A * Z)) : option A :=
  option_map fst (hd_error out).
Definition last_x (out : list (A * Z)) : option A :=
  option_map fst (last_error out).

(** What one segment [(xi,yi) -- (xj,yj)] contributes: the abscissa of its
    crossing, if it has one. *)
Definition seg_crossing (p q : A * A) : option A :=
  let '(xi, yi) := p in
  let '(xj, yj) := q in
  if (yi =? 0)%num then Some xi
  else if (yi * yj <? 0)%num then
    match ndiv ((xj - xi) * (- yi))%num (yj - yi)%num with
    | Some d => Some (xi + d)%num
    | None => None
    end
  else None.

(** The crossings of a series, segment by segment, numbered from [i]. *)
Fixpoint scan_pairs (s : list (A * A)) (i : Z) : list (A * Z) :=
  match s with
  | [] => []
  | p :: tl =>
      match tl with
      | [] => []
      | q :: _ =>
          match seg_crossing p q with
          | Some x0 => (x0, i) :: scan_pairs tl (i + 1)
          | None => scan_pairs tl (i + 1)
          end
      end
  end.
(** The crossing [c = (x0, i)] either sits on an exactly-zero sample
    [y[i]], or lies on its segment: [x[i] <= x0 <= x[i+1]]. *)
Definition interpolated_on_segment (x y : list A) (c : A * Z) : bool :=
  match getitem y (snd c), getitem x (snd c), getitem x (snd c + 1) with
  | Ok yi, Ok xi, Ok xj =>
      (yi =? 0)%num || ((xi <=? fst c)%num && (fst c <=? xj)%num)
  | _, _, _ => false
  end.

End Vocabulary.

(** What the proofs need of an arithmetic.  Rationals and binary64 both
    satisfy it. *)
Class ArithLaws (A : Type) `{Arith A} : Prop := {
  div_guarded : forall n a b : A,
    (a * b <? 0)%num = true -> ndiv n (b - a)%num <> None;
  mul_neg_opposite : forall a b : A,
    (a * b <? 0)%num = true -> opposite_sign a b = true;
  lt_zero_asym : forall a : A,
    (a <? 0)%num = true -> (0 <? a)%num = false
}.

(** What the order of crossings needs of [<=].  Rationals and binary64
    both satisfy it (on binary64 [a <= a] fails for NaN only). *)
Class OrderLaws (A : Type) {HA : Arith A} : Prop := {
  leb_trans : forall a b c : A,
    (a <=? b)%num = true -> (b <=? c)%num = true -> (a <=? c)%num = true;
  leb_refl_l : forall a b : A,
    (a <=? b)%num = true -> (a <=? a)%num = true
}.

(** * Proofs *)

(** ** Indexing and ranges *)

Lemma getitem_nth {T} (a : list T) (k : nat) (v : T) :
  nth_error a k = Some v -> getitem a (Z.of_nat k) = Ok v.
Proof.
  intros Hk. unfold getitem.
  assert (Hlt : (k < length a)%nat) by (apply nth_error_Some; congruence).
  destruct (Z.ltb_spec (Z.of_nat k) 0) as [Hneg | _]; [lia |].
  destruct (Z.leb_spec 0 (Z.of_nat k)) as [_ | Hneg]; [| lia].
  destruct (Z.ltb_spec (Z.of_nat k) (Z.of_nat (length a))) as [_ | Hge]; [| lia].
  cbn [andb]. rewrite Nat2Z.id, Hk. reflexivity.
Qed.

Lemma getitem_nth_succ {T} (a : list T) (k : nat) (v : T) :
  nth_error a (S k) = Some v -> getitem a (Z.of_nat k + 1) = Ok v.
Proof.
  intros Hk. replace (Z.of_nat k + 1)%Z with (Z.of_nat (S k)) by lia.
  now apply getitem_nth.
Qed.

Lemma range_len {T} (a : list T) :
  range (len a - 1) = map Z.of_nat (seq 0 (length a - 1)).
Proof.
  unfold range, len. f_equal. f_equal. lia.
Qed.

Lemma nth_error_split {T} (pre : list T) (a : T) (post : list T) :
  nth_error (pre ++ a :: post) (length pre) = Some a.
Proof.
  rewrite nth_error_app2 by lia. now rewrite Nat.sub_diag.
Qed.

Lemma nth_error_split_succ {T} (pre : list T) (a b : T) (post : list T) :
  nth_error (pre ++ a :: b :: post) (S (length pre)) = Some b.
Proof.
  rewrite nth_error_app2 by lia.
  now replace (S (length pre) - length pre)%nat with 1%nat by lia.
Qed.

(** The four reads at the head of a loop body, on the two columns of a
    series split around the current segment. *)
Lemma reads_at {A} (pre : list (A * A)) (p q : A * A) (post : list (A * A)) :
  let s := pre ++ p :: q :: post in
  let i := Z.of_nat (length pre) in
  getitem (ys s) i = Ok (snd p) /\ getitem (ys s) (i + 1) = Ok (snd q) /\
  getitem (xs s) i = Ok (fst p) /\ getitem (xs s) (i + 1) = Ok (fst q).
Proof.
  intros s i. unfold xs, ys, i, s.
  repeat split.
  - apply getitem_nth. rewrite nth_error_map, nth_error_split. reflexivity.
  - apply getitem_nth_succ. rewrite nth_error_map, nth_error_split_succ. reflexivity.
  - apply getitem_nth. rewrite nth_error_map, nth_error_split. reflexivity.
  - apply getitem_nth_succ. rewrite nth_error_map, nth_error_split_succ. reflexivity.
Qed.

(** ** The loops on a well-formed series *)

Section Loops.
Context {A : Type} `{ArithLaws A}.

Lemma divide_guarded (n a b : A) :
  (a * b <? 0)%num = true ->
  exists d, ndiv n (b - a)%num = Some d /\ divide n (b - a)%num = Ok d.
Proof.
  intros Hlt. unfold divide.
  destruct (ndiv n (b - a)%num) as [d |] eqn:Hd.
  - now exists d.
  - now apply (div_guarded n) in Hlt.
Qed.

(** ALL: the index loop visits the segments in order and appends what
    each contributes. *)
Lemma scan_loop_series (rest pre : list (A * A)) (out : list (A * Z)) :
  let s := pre ++ rest in
  zero_crossings_sigmaCumEnd_RMST.scan_loop (xs s) (ys s)
    (map Z.of_nat (seq (length pre) (length rest - 1))) out
  = Ok (out ++ scan_pairs rest (Z.of_nat (length pre))).
Proof.
  revert pre out.
  induction rest as [| p tl IH]; intros pre out s.
  - cbn. now rewrite app_nil_r.
  - destruct tl as [| q post].
    + cbn. now rewrite app_nil_r.
    + replace (length (p :: q :: post) - 1)%nat with (S (length post)) by (cbn; lia).
      cbn [seq map zero_crossings_sigmaCumEnd_RMST.scan_loop].
      destruct (reads_at pre p q post) as (Hyi & Hyj & Hxi & Hxj).
      fold s in Hyi, Hyj, Hxi, Hxj.
      rewrite Hyi, Hyj, Hxi, Hxj. cbn [bind].
      specialize (IH (pre ++ [p])).
      rewrite <- app_assoc in IH. cbn [app] in IH. fold s in IH.
      rewrite length_app in IH. cbn [length] in IH.
      cbn [length] in IH.
      replace (S (length post) - 1)%nat with (length post) in IH by lia.
      replace (length pre + 1)%nat with (S (length pre)) in IH by lia.
      replace (Z.of_nat (S (length pre))) with (Z.of_nat (length pre) + 1)%Z in IH by lia.
      destruct p as [xi yi], q as [xj yj]. cbn [fst snd].
      cbn [scan_pairs seg_crossing].
      destruct (yi =? 0)%num.
      * rewrite IH, <- app_assoc. reflexivity.
      * destruct (yi * yj <? 0)%num eqn:Hflip.
        -- destruct (divide_guarded ((xj - xi) * - yi)%num _ _ Hflip) as (d & Hd & Hdiv).
           rewrite Hdiv, Hd. cbn [bind].
           rewrite IH, <- app_assoc. reflexivity.
        -- apply IH.
Qed.

(** FIRST: the index loop stops at the first segment that contributes. *)
Lemma first_loop_series (rest pre : list (A * A)) :
  let s := pre ++ rest in
  make_fig23.first_loop (xs s) (ys s)
    (map Z.of_nat (seq (length pre) (length rest - 1)))
  = Ok (first_x (scan_pairs rest (Z.of_nat (length pre)))).
Proof.
  revert pre.
  induction rest as [| p tl IH]; intros pre s.
  - reflexivity.
  - destruct tl as [| q post].
    + reflexivity.
    + replace (length (p :: q :: post) - 1)%nat with (S (length post)) by (cbn; lia).
      cbn [seq map make_fig23.first_loop].
      destruct (reads_at pre p q post) as (Hyi & Hyj & Hxi & Hxj).
      fold s in Hyi, Hyj, Hxi, Hxj.
      rewrite Hyi, Hyj, Hxi, Hxj. cbn [bind].
      specialize (IH (pre ++ [p])).
      rewrite <- app_assoc in IH. cbn [app] in IH. fold s in IH.
      rewrite length_app in IH. cbn [length] in IH.
      replace (S (length post) - 1)%nat with (length post) in IH by lia.
      replace (length pre + 1)%nat with (S (length pre)) in IH by lia.
      replace (Z.of_nat (S (length pre))) with (Z.of_nat (length pre) + 1)%Z in IH by lia.
      destruct p as [xi yi], q as [xj yj]. cbn [fst snd].
      cbn [scan_pairs seg_crossing].
      destruct (yi =? 0)%num; [reflexivity |].
      destruct (yi * yj <? 0)%num eqn:Hflip; [| apply IH].
      destruct (divide_guarded ((xj - xi) * - yi)%num _ _ Hflip) as (d & Hd & Hdiv).
      rewrite Hdiv, Hd. reflexivity.
Qed.

Lemma last_x_cons (c : A * Z) (l : list (A * Z)) (zc : option A) :
  match last_x (c :: l) with Some v => Some v | None => zc end
  = match last_x l with Some v => Some v | None => Some (fst c) end.
Proof.
  unfold last_x. destruct l as [| c' l']; [reflexivity |].
  change (last_error (c :: c' :: l')) with (last_error (c' :: l')).
  destruct (last_error (c' :: l')) eqn:E; [reflexivity |].
  exfalso. clear -E. revert c' E.
  induction l' as [| c'' l'' IHl]; intros c' E; [discriminate |].
  cbn [last_error] in E. now apply IHl in E.
Qed.

(** LAST: the index loop keeps the latest contribution, starting from the
    value [zc] held before the loop. *)
Lemma last_loop_series (rest pre : list (A * A)) (zc : option A) :
  let s := pre ++ rest in
  make_fig7.last_loop (xs s) (ys s)
    (map Z.of_nat (seq (length pre) (length rest - 1))) zc
  = Ok (match last_x (scan_pairs rest (Z.of_nat (length pre))) with
        | Some v => Some v
        | None => zc
        end).
Proof.
  revert pre zc.
  induction rest as [| p tl IH]; intros pre zc s.
  - reflexivity.
  - destruct tl as [| q post].
    + reflexivity.
    + replace (length (p :: q :: post) - 1)%nat with (S (length post)) by (cbn; lia).
      cbn [seq map make_fig7.last_loop].
      destruct (reads_at pre p q post) as (Hyi & Hyj & Hxi & Hxj).
      fold s in Hyi, Hyj, Hxi, Hxj.
      rewrite Hyi, Hyj, Hxi, Hxj. cbn [bind].
      specialize (IH (pre ++ [p])).
      rewrite <- app_assoc in IH. cbn [app] in IH. fold s in IH.
      rewrite length_app in IH. cbn [length] in IH.
      replace (S (length post) - 1)%nat with (length post) in IH by lia.
      replace (length pre + 1)%nat with (S (length pre)) in IH by lia.
      replace (Z.of_nat (S (length pre))) with (Z.of_nat (length pre) + 1)%Z in IH by lia.
      destruct p as [xi yi], q as [xj yj]. cbn [fst snd].
      cbn [scan_pairs seg_crossing].
      destruct (yi =? 0)%num.
      * rewrite IH, last_x_cons. reflexivity.
      * destruct (yi * yj <? 0)%num eqn:Hflip; [| apply IH].
        destruct (divide_guarded ((xj - xi) * - yi)%num _ _ Hflip) as (d & Hd & Hdiv).
        rewrite Hdiv, Hd. cbn [bind].
        rewrite IH, last_x_cons. reflexivity.
Qed.

(** The three scans of a whole series. *)
Lemma all_series (s : list (A * A)) :
  zero_crossings_sigmaCumEnd_RMST.zero_crossings_linear_interp (xs s) (ys s)
  = Ok (scan_pairs s 0).
Proof.
  unfold zero_crossings_sigmaCumEnd_RMST.zero_crossings_linear_interp.
  rewrite range_len. unfold ys at 2. rewrite length_map.
  apply (scan_loop_series s [] []).
Qed.

Lemma first_series (s : list (A * A)) :
  make_fig23.first_zero_crossing_linear (xs s) (ys s)
  = Ok (first_x (scan_pairs s 0)).
Proof.
  unfold make_fig23.first_zero_crossing_linear.
  rewrite range_len. unfold ys at 2. rewrite length_map.
  apply (first_loop_series s []).
Qed.

Lemma last_series (s : list (A * A)) :
  make_fig7.last_zero_crossing (xs s) (ys s)
  = Ok (last_x (scan_pairs s 0)).
Proof.
  unfold make_fig7.last_zero_crossing, make_fig7.asarray. cbv zeta.
  rewrite range_len. unfold ys at 2. rewrite length_map.
  pose proof (last_loop_series s [] None) as E.
  cbn [app length] in E. change (Z.of_nat 0) with 0%Z in E.
  rewrite E. now destruct (last_x (scan_pairs s 0)).
Qed.
End Loops.

(** ** The two arithmetics satisfy the laws *)

Lemma Q_ltb_lt (a b : Q) : (a <? b)%num = true <-> (a < b)%Q.
Proof.
  cbn. rewrite negb_true_iff. split.
  - intros Hle. apply Qnot_le_lt. intros Hba.
    apply Qle_bool_iff in Hba. congruence.
  - intros Hlt. destruct (Qle_bool b a) eqn:Hle; [| reflexivity].
    apply Qle_bool_iff in Hle. exfalso. now apply (Qlt_not_le a b).
Qed.

Lemma Q_ltb_ge (a b : Q) : (a <? b)%num = false <-> (b <= a)%Q.
Proof.
  cbn. rewrite negb_false_iff. apply Qle_bool_iff.
Qed.

Lemma Q_eqb_eq (a b : Q) : (a =? b)%num = true <-> (a == b)%Q.
Proof. apply Qeq_bool_iff. Qed.

Lemma Q_eqb_neq (a b : Q) : (a =? b)%num = false <-> ~ (a == b)%Q.
Proof.
  cbn. split.
  - intros Hf Heq. apply Qeq_bool_iff in Heq. congruence.
  - intros Hne. destruct (Qeq_bool a b) eqn:E; [| reflexivity].
    apply Qeq_bool_iff in E. contradiction.
Qed.

(** A negative product has factors of strictly opposite signs. *)
Lemma Q_mul_neg (a b : Q) :
  (a * b < 0)%Q -> (a < 0 /\ 0 < b)%Q \/ (0 < a /\ b < 0)%Q.
Proof.
  intros Hneg.
  destruct (Q_dec a 0) as [[Ha | Ha] | Ha].
  - left. split; [exact Ha |].
    destruct (Qlt_le_dec 0 b) as [Hb | Hb]; [exact Hb | exfalso; nra].
  - right. split; [exact Ha |].
    destruct (Qlt_le_dec b 0) as [Hb | Hb]; [exact Hb | exfalso; nra].
  - exfalso. rewrite Ha in Hneg. nra.
Qed.

(** Under the sign-flip guard the denominator of the chord is nonzero. *)
Lemma Q_flip_denominator (a b : Q) : (a * b < 0)%Q -> ~ (b - a == 0)%Q.
Proof.
  intros Hneg Hz. destruct (Q_mul_neg a b Hneg) as [[Ha Hb] | [Ha Hb]]; lra.
Qed.

#[export] Instance Q_laws : ArithLaws Q.
Proof.
  split.
  - intros n a b Hflip. apply Q_ltb_lt in Hflip.
    apply Q_flip_denominator in Hflip. apply Q_eqb_neq in Hflip.
    cbn in *. rewrite Hflip. discriminate.
  - intros a b Hflip. apply Q_ltb_lt in Hflip.
    unfold opposite_sign.
    apply orb_true_iff.
    destruct (Q_mul_neg a b Hflip) as [[Ha Hb] | [Ha Hb]];
      apply Q_ltb_lt in Ha; apply Q_ltb_lt in Hb; [left | right];
      apply andb_true_iff; split; assumption.
  - intros a Ha. apply Q_ltb_lt in Ha. apply Q_ltb_ge. now apply Qlt_le_weak.
Qed.

(** For binary64 the laws are read off the IEEE specification of the
    primitive operations. *)
Lemma SF_round_sign (sx : bool) (mx ex : Z) (lx : location) :
  SFltb (binary_round_aux prec emax sx mx ex lx) (S754_zero false) = true ->
  sx = true.
Proof.
  unfold binary_round_aux.
  destruct (shr_fexp prec emax mx ex lx) as [mrs' e'].
  destruct (shr_fexp prec emax _ e' loc_Exact) as [mrs'' e''].
  destruct (shr_m mrs'') as [| m | m]; [discriminate | | discriminate].
  destruct (e'' <=? emax - prec)%Z; destruct sx; (reflexivity || discriminate).
Qed.

Lemma SF_mul_neg (X Y : spec_float) :
  SFltb (SFmul prec emax X Y) (S754_zero false) = true ->
  (SFltb X (S754_zero false) = true /\ SFltb (S754_zero false) Y = true) \/
  (SFltb (S754_zero false) X = true /\ SFltb Y (S754_zero false) = true).
Proof.
  destruct X as [sx | sx | | sx mx ex], Y as [sy | sy | | sy my ey];
    cbn [SFmul]; try discriminate;
    try (destruct sx, sy; cbn; intros Hlt; (discriminate || tauto)).
  intros Hlt. apply SF_round_sign in Hlt.
  destruct sx, sy; cbn in *; (discriminate || tauto).
Qed.

Lemma SF_lt_zero_asym (X : spec_float) :
  SFltb X (S754_zero false) = true -> SFltb (S754_zero false) X = false.
Proof.
  destruct X as [sx | sx | | sx mx ex]; try destruct sx; cbn;
    intros Hlt; (discriminate || reflexivity).
Qed.

Lemma Prim2SF_zero : Prim2SF PrimFloat.zero = S754_zero false.
Proof. reflexivity. Qed.

#[export] Instance binary64_laws : ArithLaws float.
Proof.
  split.
  - intros n a b _. discriminate.
  - intros a b Hflip. cbn in Hflip.
    rewrite ltb_spec, mul_spec, Prim2SF_zero in Hflip.
    apply SF_mul_neg in Hflip.
    unfold opposite_sign. cbn [nltb nzero binary64_arith].
    rewrite !ltb_spec, Prim2SF_zero.
    apply orb_true_iff.
    destruct Hflip as [[Ha Hb] | [Ha Hb]]; [left | right];
      apply andb_true_iff; split; assumption.
  - intros a Ha. cbn in *. rewrite ltb_spec, Prim2SF_zero in *.
    now apply SF_lt_zero_asym.
Qed.

(** *** binary64: a negative product gives a nonzero difference *)

(** One right shift of a mantissa drops one binary digit. *)
Lemma shr_1_digits (s : shr_record) :
  (0 <= shr_m s)%Z ->
  (0 <= shr_m (shr_1 s))%Z /\
  Zdigits2 (shr_m (shr_1 s)) = Z.max 0 (Zdigits2 (shr_m s) - 1).
Proof.
  destruct s as [m r t]. cbn [shr_m]. intros Hm.
  destruct m as [| p | p]; [cbn; lia | | lia].
  destruct p as [p | p |]; cbn [shr_1 shr_m Zdigits2 digits2_pos orb];
    rewrite ?Pos2Z.inj_succ; lia.
Qed.

Lemma iter_shr_1_digits (p : positive) (s : shr_record) :
  (0 <= shr_m s)%Z ->
  (0 <= shr_m (iter_pos shr_1 p s))%Z /\
  Zdigits2 (shr_m (iter_pos shr_1 p s))
  = Z.max 0 (Zdigits2 (shr_m s) - Zpos p).
Proof.
  revert s. induction p as [p IH | p IH |]; intros s Hs; cbn [iter_pos].
  - destruct (shr_1_digits s Hs) as [H1 D1].
    destruct (IH _ H1) as [H2 D2]. destruct (IH _ H2) as [H3 D3].
    split; [exact H3 |]. rewrite D3, D2, D1. lia.
  - destruct (IH _ Hs) as [H2 D2]. destruct (IH _ H2) as [H3 D3].
    split; [exact H3 |]. rewrite D3, D2. lia.
  - apply shr_1_digits, Hs.
Qed.

Lemma Zdigits2_positive (z : Z) :
  (0 <= z)%Z -> (0 < Zdigits2 z)%Z -> (0 < z)%Z.
Proof. destruct z; cbn; lia. Qed.

Lemma shr_record_of_loc_m (m : Z) (l : location) :
  shr_m (shr_record_of_loc m l) = m.
Proof. destruct l as [| []]; reflexivity. Qed.

(** The shift to the target exponent keeps [prec] digits of a mantissa
    whose exponent is not below [emin]: the mantissa stays positive. *)
Lemma shr_fexp_positive (m : positive) (e : Z) (l : location) :
  (emin <= e)%Z ->
  (0 < shr_m (fst (shr_fexp prec emax (Zpos m) e l)))%Z /\
  (emin <= snd (shr_fexp prec emax (Zpos m) e l))%Z.
Proof.
  intros He. unfold shr_fexp, shr.
  assert (Hn : (fexp prec emax (Zdigits2 (Zpos m) + e) - e
                < Zdigits2 (Zpos m))%Z).
  { revert He. unfold fexp, SpecFloat.emin, prec, emax. cbn [Zdigits2]. lia. }
  destruct (fexp prec emax (Zdigits2 (Zpos m) + e) - e)%Z as [| p | p];
    cbn [fst snd].
  - rewrite shr_record_of_loc_m. lia.
  - destruct (iter_shr_1_digits p (shr_record_of_loc (Zpos m) l)) as [H0 D].
    { rewrite shr_record_of_loc_m. lia. }
    rewrite shr_record_of_loc_m in D.
    split; [| lia]. apply Zdigits2_positive; [exact H0 |]. rewrite D. lia.
  - rewrite shr_record_of_loc_m. lia.
Qed.

Lemma round_nearest_even_positive (m : Z) (l : location) :
  (0 < m)%Z -> (0 < round_nearest_even m l)%Z.
Proof.
  intros Hm. unfold round_nearest_even.
  destruct l as [| []]; try destruct (Z.even m); lia.
Qed.

(** Rounding a nonzero mantissa at an exponent not below [emin] never
    gives a zero: there is no underflow to zero in a sum. *)
Lemma binary_round_aux_nonzero (sx : bool) (m : positive) (e : Z)
  (l : location) :
  (emin <= e)%Z ->
  SFeqb (binary_round_aux prec emax sx (Zpos m) e l) (S754_zero false) = false.
Proof.
  intros He. unfold binary_round_aux.
  destruct (shr_fexp_positive m e l He) as [Hm1 He1].
  destruct (shr_fexp prec emax (Zpos m) e l) as [mrs' e']. cbn [fst snd] in *.
  pose proof (round_nearest_even_positive _ (loc_of_shr_record mrs') Hm1) as Hr.
  destruct (round_nearest_even (shr_m mrs') (loc_of_shr_record mrs'))
    as [| m2 | m2]; try lia.
  destruct (shr_fexp_positive m2 e' loc_Exact He1) as [Hm2 _].
  destruct (shr_fexp prec emax (Zpos m2) e' loc_Exact) as [mrs'' e''].
  cbn [fst snd] in *.
  destruct (shr_m mrs'') as [| m3 | m3]; try lia.
  destruct (e'' <=? emax - prec)%Z; destruct sx; reflexivity.
Qed.

Lemma binary_round_nonzero (sx : bool) (m : positive) (e : Z) :
  (emin <= e)%Z ->
  SFeqb (binary_round prec emax sx m e) (S754_zero false) = false.
Proof.
  intros He. unfold binary_round, shl_align.
  assert (Hf : (emin <= fexp prec emax (Zpos (digits2_pos m) + e))%Z)
    by (unfold fexp; lia).
  destruct (fexp prec emax (Zpos (digits2_pos m) + e) - e)%Z;
    now apply binary_round_aux_nonzero.
Qed.

Lemma valid_exponent (s : bool) (m : positive) (e : Z) :
  valid_binary (S754_finite s m e) = true -> (emin <= e)%Z.
Proof.
  cbn [SpecFloat.valid_binary]. unfold bounded, canonical_mantissa.
  intros Hv. apply andb_true_iff in Hv. destruct Hv as [Hc _].
  apply Z.eqb_eq in Hc. revert Hc. unfold fexp. lia.
Qed.

(** The difference of two values whose product is negative is not zero. *)
Lemma SF_flip_sub (X Y : spec_float) :
  valid_binary X = true -> valid_binary Y = true ->
  SFltb (SFmul prec emax X Y) (S754_zero false) = true ->
  SFeqb (SFsub prec emax Y X) (S754_zero false) = false.
Proof.
  intros HX HY.
  destruct X as [sx | sx | | sx mx ex], Y as [sy | sy | | sy my ey];
    cbn [SFmul]; try discriminate;
    try (destruct sx, sy; cbn; intros Hlt; (discriminate || reflexivity)).
  intros Hlt. apply SF_round_sign in Hlt.
  apply valid_exponent in HX, HY.
  cbn [SFsub]. unfold shl_align.
  assert (Hz : (emin <= Z.min ey ex)%Z) by lia.
  destruct sx, sy; try discriminate; cbn [cond_Zopp];
    destruct (Z.min ey ex - ey)%Z, (Z.min ey ex - ex)%Z; cbn [fst];
    cbn [Z.sub Z.opp Z.add binary_normalize];
    now apply binary_round_nonzero.
Qed.

(** On binary64, under the sign-flip guard the denominator of the chord
    is nonzero. *)
Lemma binary64_flip_denominator (a b : float) :
  PrimFloat.ltb (PrimFloat.mul a b) PrimFloat.zero = true ->
  PrimFloat.eqb (PrimFloat.sub b a) PrimFloat.zero = false.
Proof.
  rewrite ltb_spec, mul_spec, eqb_spec, sub_spec, Prim2SF_zero.
  apply SF_flip_sub; apply Prim2SF_valid.
Qed.

(** The laws hold as well when the division raises on a zero divisor. *)
Lemma python_float_laws : @ArithLaws float python_float_arith.
Proof.
  split.
  - intros n a b Hflip. cbn in *.
    rewrite (binary64_flip_denominator a b Hflip). discriminate.
  - exact (@mul_neg_opposite float binary64_arith binary64_laws).
  - exact (@lt_zero_asym float binary64_arith binary64_laws).
Qed.

(** *** The order laws *)

#[export] Instance Q_order : OrderLaws Q.
Proof.
  split.
  - intros a b c Hab Hbc. apply Qle_bool_iff in Hab, Hbc.
    apply Qle_bool_iff. now apply Qle_trans with b.
  - intros a b _. apply Qle_bool_iff, Qle_refl.
Qed.

Lemma SF_compare_refl (X : spec_float) :
  X <> S754_nan -> SFcompare X X = Some Eq.
Proof.
  destruct X as [sx | sx | | sx mx ex]; intros Hn; try destruct sx; cbn;
    try reflexivity; try contradiction;
    rewrite Z.compare_refl, Pos.compare_cont_refl; reflexivity.
Qed.

Lemma SF_leb_refl_l (X Y : spec_float) :
  SFleb X Y = true -> SFleb X X = true.
Proof.
  intros Hle. unfold SFleb. rewrite SF_compare_refl; [reflexivity |].
  intros ->. discriminate.
Qed.

(** Splits on every comparison of exponents or mantissas in sight. *)
Ltac order_cases :=
  repeat match goal with
  | H : context [Z.compare ?a ?b] |- _ =>
      destruct (Z.compare_spec a b); try discriminate
  | |- context [Z.compare ?a ?b] =>
      destruct (Z.compare_spec a b); try lia
  | H : context [Pos.compare_cont Eq ?a ?b] |- _ =>
      change (Pos.compare_cont Eq a b) with (Pos.compare a b) in H;
      destruct (Pos.compare_spec a b); try discriminate
  | |- context [Pos.compare_cont Eq ?a ?b] =>
      change (Pos.compare_cont Eq a b) with (Pos.compare a b);
      destruct (Pos.compare_spec a b); try lia
  end.

Lemma SF_leb_trans (X Y Z : spec_float) :
  SFleb X Y = true -> SFleb Y Z = true -> SFleb X Z = true.
Proof.
  unfold SFleb.
  destruct X as [sx | sx | | sx mx ex], Y as [sy | sy | | sy my ey],
           Z as [sz | sz | | sz mz ez];
    try destruct sx; try destruct sy; try destruct sz;
    cbn [SFcompare CompOpp]; intros H1 H2;
    try discriminate; try reflexivity;
    order_cases; subst; try lia; try reflexivity; try discriminate.
Qed.

#[export] Instance binary64_order : OrderLaws float.
Proof.
  split.
  - intros a b c. cbn. rewrite !leb_spec. apply SF_leb_trans.
  - intros a b. cbn. rewrite !leb_spec. apply SF_leb_refl_l.
Qed.

(** ** What the segment-by-segment scan contains *)

Section ScanPairs.
Context {A : Type} `{Arith A}.

Lemma scan_pairs_cons (p q : A * A) (post : list (A * A)) (k0 : Z) :
  scan_pairs (p :: q :: post) k0
  = match seg_crossing p q with
    | Some x0 => (x0, k0) :: scan_pairs (q :: post) (k0 + 1)
    | None => scan_pairs (q :: post) (k0 + 1)
    end.
Proof. reflexivity. Qed.

(** A crossing numbered [i] comes from the segment [i - k0] and carries
    what that segment contributes. *)
Lemma scan_pairs_In (s : list (A * A)) (k0 : Z) (x0 : A) (i : Z) :
  In (x0, i) (scan_pairs s k0) <->
  exists (j : nat) (p q : A * A),
    i = (k0 + Z.of_nat j)%Z /\
    nth_error s j = Some p /\ nth_error s (S j) = Some q /\
    seg_crossing p q = Some x0.
Proof.
  revert k0. induction s as [| p tl IH]; intros k0.
  - cbn. split; [tauto |]. intros (j & p & q & _ & Hp & _).
    now destruct j.
  - destruct tl as [| q post].
    + cbn. split; [tauto |]. intros (j & p' & q' & _ & _ & Hq & _).
      now destruct j.
    + rewrite scan_pairs_cons. split.
      * intros Hin.
        assert (Hcase : (seg_crossing p q = Some x0 /\ i = k0) \/
                        In (x0, i) (scan_pairs (q :: post) (k0 + 1))).
        { destruct (seg_crossing p q) as [c |]; [| now right].
          destruct Hin as [Heq | Hin]; [left | now right].
          inversion Heq; subst. now split. }
        destruct Hcase as [[Hseg Hi] | Htl].
        -- exists 0%nat, p, q. cbn. repeat split; [lia | exact Hseg].
        -- apply IH in Htl. destruct Htl as (j & p' & q' & Hi & Hp & Hq & Hseg).
           exists (S j), p', q'. repeat split; [lia | exact Hp | exact Hq | exact Hseg].
      * intros (j & p' & q' & Hi & Hp & Hq & Hseg).
        destruct j as [| j].
        -- cbn in Hp, Hq. inversion Hp; inversion Hq; subst p' q'.
           rewrite Hseg. left. f_equal. lia.
        -- assert (Htl : In (x0, i) (scan_pairs (q :: post) (k0 + 1))).
           { apply IH. exists j, p', q'.
             repeat split; [lia | exact Hp | exact Hq | exact Hseg]. }
           destruct (seg_crossing p q); [now right | exact Htl].
Qed.

Lemma scan_pairs_index_ge (s : list (A * A)) (k0 : Z) (c : A * Z) :
  In c (scan_pairs s k0) -> (k0 <= snd c)%Z.
Proof.
  destruct c as [x0 i]. intros Hin.
  apply scan_pairs_In in Hin. destruct Hin as (j & _ & _ & Hi & _).
  cbn. lia.
Qed.

(** No segment number occurs twice. *)
Lemma scan_pairs_NoDup (s : list (A * A)) (k0 : Z) :
  NoDup (map snd (scan_pairs s k0)).
Proof.
  revert k0. induction s as [| p tl IH]; intros k0; [constructor |].
  destruct tl as [| q post]; [constructor |].
  rewrite scan_pairs_cons.
  destruct (seg_crossing p q) as [x0 |]; [| apply IH].
  cbn [map snd]. constructor; [| apply IH].
  intros Hin. apply in_map_iff in Hin. destruct Hin as (c & Hc & Hin).
  apply scan_pairs_index_ge in Hin. lia.
Qed.

(** The contribution of one segment, case by case. *)
Lemma seg_crossing_spec (xi yi xj yj x0 : A) :
  seg_crossing (xi, yi) (xj, yj) = Some x0 <->
  ((yi =? 0)%num = true /\ x0 = xi) \/
  ((yi =? 0)%num = false /\ (yi * yj <? 0)%num = true /\
   exists d, ndiv ((xj - xi) * - yi)%num (yj - yi)%num = Some d /\
             x0 = (xi + d)%num).
Proof.
  cbn [seg_crossing].
  destruct (yi =? 0)%num.
  - split.
    + intros E. inversion E. now left.
    + intros [[_ E] | [E _]]; [now subst | discriminate].
  - destruct (yi * yj <? 0)%num.
    + destruct (ndiv ((xj - xi) * - yi)%num (yj - yi)%num) as [d |].
      * split.
        -- intros E. inversion E. right. repeat split. now exists d.
        -- intros [[E _] | (_ & _ & d' & Hd & Hx)]; [discriminate |].
           inversion Hd. now subst.
      * split; [discriminate |].
        intros [[E _] | (_ & _ & d' & Hd & _)]; discriminate.
    + split; [discriminate |].
      intros [[E _] | (_ & E & _)]; discriminate.
Qed.
End ScanPairs.

(** The crossing numbered [k] is what segment [k] contributes. *)
Lemma scan_pairs_segment {A : Type} `{Arith A} (s : list (A * A)) (k : nat)
  (p q : A * A) (x0 : A) :
  nth_error s k = Some p -> nth_error s (S k) = Some q ->
  In (x0, Z.of_nat k) (scan_pairs s 0) <-> seg_crossing p q = Some x0.
Proof.
  intros Hk HSk. rewrite scan_pairs_In. split.
  - intros (j & p' & q' & Hi & Hp & Hq & Hc).
    assert (j = k) by lia. subst j. congruence.
  - intros Hc. exists k, p, q. repeat split; assumption.
Qed.

(** ** The claims about the three modes *)

Import zero_crossings_sigmaCumEnd_RMST.

Lemma same_sign_no_flip {A : Type} `{ArithLaws A} (a b : A) :
  same_sign_nonzero a b = true -> (a * b <? 0)%num = false.
Proof.
  intros Hsame. destruct (a * b <? 0)%num eqn:Hflip; [| reflexivity].
  apply mul_neg_opposite in Hflip.
  unfold same_sign_nonzero in Hsame. unfold opposite_sign in Hflip.
  apply andb_true_iff in Hsame. destruct Hsame as [_ Hsame].
  apply orb_true_iff in Hsame. apply orb_true_iff in Hflip.
  destruct Hsame as [Hs | Hs], Hflip as [Hf | Hf];
    apply andb_true_iff in Hs; apply andb_true_iff in Hf;
    destruct Hs as [Hsa Hsb], Hf as [Hfa Hfb].
  - apply lt_zero_asym in Hsb. congruence.
  - apply lt_zero_asym in Hsa. congruence.
  - apply lt_zero_asym in Hfa. congruence.
  - apply lt_zero_asym in Hfb. congruence.
Qed.

(** C1. ALL-mode reference definition.  On every series the ALL scan
    returns a list [out] such that, for every segment [k] (samples [k] and
    [k+1] both exist), a crossing numbered [k] is in [out] exactly when
    either [y[k] == 0], and then it sits at [x[k]], or [y[k] != 0] and
    [y[k] * y[k+1] < 0], and then it sits at
    [x[k] + (x[k+1] - x[k]) * (-y[k]) / (y[k+1] - y[k])]; a segment whose two
    values are nonzero with the same sign has no crossing; every crossing is
    numbered by a segment; no segment number occurs twice. *)
Theorem all_mode_reference {A : Type} `{ArithLaws A} (s : list (A * A)) :
  exists out,
    zero_crossings_linear_interp (xs s) (ys s) = Ok out /\
    (forall (k : nat) (xi yi xj yj : A),
        nth_error s k = Some (xi, yi) -> nth_error s (S k) = Some (xj, yj) ->
        forall x0,
          In (x0, Z.of_nat k) out <->
          ((yi =? 0)%num = true /\ x0 = xi) \/
          ((yi =? 0)%num = false /\ (yi * yj <? 0)%num = true /\
           exists d, ndiv ((xj - xi) * - yi)%num (yj - yi)%num = Some d /\
                     x0 = (xi + d)%num)) /\
    (forall (k : nat) (xi yi xj yj : A),
        nth_error s k = Some (xi, yi) -> nth_error s (S k) = Some (xj, yj) ->
        same_sign_nonzero yi yj = true ->
        forall x0, ~ In (x0, Z.of_nat k) out) /\
    (forall x0 i, In (x0, i) out ->
                  exists k : nat, i = Z.of_nat k /\ (S k < length s)%nat) /\
    NoDup (map snd out).
Proof.
  exists (scan_pairs s 0). split; [apply all_series |].
  assert (Hseg : forall (k : nat) (xi yi xj yj : A),
             nth_error s k = Some (xi, yi) -> nth_error s (S k) = Some (xj, yj) ->
             forall x0, In (x0, Z.of_nat k) (scan_pairs s 0) <->
                        seg_crossing (xi, yi) (xj, yj) = Some x0).
  { intros k xi yi xj yj Hk HSk x0. rewrite scan_pairs_In. split.
    - intros (j & p & q & Hi & Hp & Hq & Hc).
      assert (j = k) by lia. subst j.
      rewrite Hk in Hp. rewrite HSk in Hq. inversion Hp; inversion Hq; subst.
      exact Hc.
    - intros Hc. exists k, (xi, yi), (xj, yj). repeat split; assumption. }
  repeat split.
  - intros Hin. apply (Hseg k xi yi xj yj) in Hin; try assumption.
    now apply seg_crossing_spec.
  - intros Hcase. apply (Hseg k xi yi xj yj); try assumption.
    now apply seg_crossing_spec.
  - intros k xi yi xj yj Hk HSk Hsame x0 Hin.
    apply (Hseg k xi yi xj yj) in Hin; try assumption.
    pose proof (same_sign_no_flip _ _ Hsame) as Hflip.
    unfold same_sign_nonzero in Hsame.
    apply andb_true_iff in Hsame. destruct Hsame as [Hnz _].
    apply andb_true_iff in Hnz. destruct Hnz as [Hnz _].
    apply negb_true_iff in Hnz.
    cbn [seg_crossing] in Hin. rewrite Hnz, Hflip in Hin. discriminate.
  - intros x0 i Hin. apply scan_pairs_In in Hin.
    destruct Hin as (j & p & q & Hi & _ & Hq & _).
    exists j. split; [lia |]. apply nth_error_Some. congruence.
  - apply scan_pairs_NoDup.
Qed.

Lemma all_mode_reference_witness :
  let s := [(0, -2); (1, 2); (2, -2); (3, 2)]%Q in
  exists out,
    zero_crossings_linear_interp (xs s) (ys s) = Ok out /\
    (forall (k : nat) (xi yi xj yj : Q),
        nth_error s k = Some (xi, yi) -> nth_error s (S k) = Some (xj, yj) ->
        forall x0,
          In (x0, Z.of_nat k) out <->
          ((yi =? 0)%num = true /\ x0 = xi) \/
          ((yi =? 0)%num = false /\ (yi * yj <? 0)%num = true /\
           exists d, ndiv ((xj - xi) * - yi)%num (yj - yi)%num = Some d /\
                     x0 = (xi + d)%num)) /\
    (forall (k : nat) (xi yi xj yj : Q),
        nth_error s k = Some (xi, yi) -> nth_error s (S k) = Some (xj, yj) ->
        same_sign_nonzero yi yj = true ->
        forall x0, ~ In (x0, Z.of_nat k) out) /\
    (forall x0 i, In (x0, i) out ->
                  exists k : nat, i = Z.of_nat k /\ (S k < length s)%nat) /\
    NoDup (map snd out).
Proof.
  exact (all_mode_reference (A := Q) [(0, -2); (1, 2); (2, -2); (3, 2)]%Q).
Defined.

Lemma first_x_None {A : Type} (out : list (A * Z)) :
  first_x out = None <-> out = [].
Proof.
  destruct out as [| c l]; cbn; split; (reflexivity || discriminate).
Qed.

Lemma last_error_None {T : Type} (l : list T) : last_error l = None <-> l = [].
Proof.
  split; [| now intros ->].
  induction l as [| a tl IH]; [reflexivity |].
  destruct tl as [| b tl']; [discriminate |].
  intros E. change (last_error (b :: tl') = None) in E.
  apply IH in E. discriminate.
Qed.

Lemma last_x_None {A : Type} (out : list (A * Z)) :
  last_x out = None <-> out = [].
Proof.
  unfold last_x. rewrite <- last_error_None.
  destruct (last_error out); cbn; split; (reflexivity || discriminate).
Qed.

(** C2. FIRST mode is the head of ALL mode.  On every series
    [first_zero_crossing_linear] returns the abscissa of the first element
    of the list returned by [zero_crossings_linear_interp], and [None]
    exactly when that list is empty. *)
Theorem first_is_head_of_all {A : Type} `{ArithLaws A} (s : list (A * A)) :
  exists out r,
    zero_crossings_linear_interp (xs s) (ys s) = Ok out /\
    make_fig23.first_zero_crossing_linear (xs s) (ys s) = Ok r /\
    r = option_map fst (hd_error out) /\
    (r = None <-> out = []).
Proof.
  exists (scan_pairs s 0), (first_x (scan_pairs s 0)).
  split; [apply all_series |].
  split; [apply first_series |].
  split; [reflexivity | apply first_x_None].
Qed.

Lemma first_is_head_of_all_witness :
  let s := [(0, -2); (1, 2); (2, -2); (3, 2)]%Q in
  exists out r,
    zero_crossings_linear_interp (xs s) (ys s) = Ok out /\
    make_fig23.first_zero_crossing_linear (xs s) (ys s) = Ok r /\
    r = option_map fst (hd_error out) /\
    (r = None <-> out = []).
Proof.
  exact (first_is_head_of_all (A := Q) [(0, -2); (1, 2); (2, -2); (3, 2)]%Q).
Defined.

(** C3. LAST mode is the last element of ALL mode.  On every series
    [last_zero_crossing] returns the abscissa of the last element of the
    list returned by [zero_crossings_linear_interp], and [None] exactly
    when that list is empty. *)
Theorem last_is_last_of_all {A : Type} `{ArithLaws A} (s : list (A * A)) :
  exists out r,
    zero_crossings_linear_interp (xs s) (ys s) = Ok out /\
    make_fig7.last_zero_crossing (xs s) (ys s) = Ok r /\
    r = option_map fst (last_error out) /\
    (r = None <-> out = []).
Proof.
  exists (scan_pairs s 0), (last_x (scan_pairs s 0)).
  split; [apply all_series |].
  split; [apply last_series |].
  split; [reflexivity | apply last_x_None].
Qed.

Lemma last_is_last_of_all_witness :
  let s := [(0, -2); (1, 2); (2, -2); (3, 2)]%float in
  exists out r,
    zero_crossings_linear_interp (xs s) (ys s) = Ok out /\
    make_fig7.last_zero_crossing (xs s) (ys s) = Ok r /\
    r = option_map fst (last_error out) /\
    (r = None <-> out = []).
Proof.
  exact (last_is_last_of_all (A := float)
           [(0, -2); (1, 2); (2, -2); (3, 2)]%float).
Defined.

(** ** The duplicated FIRST scans *)

(** Unfolds one iteration of a loop and splits on its reads and tests. *)
Ltac loop_cases x y i :=
  destruct (getitem y i) as [yi | |]; cbn [bind]; try reflexivity;
  destruct (getitem y (i + 1)) as [yj | |]; cbn [bind]; try reflexivity;
  destruct (getitem x i) as [xi | |]; cbn [bind]; try reflexivity;
  destruct (getitem x (i + 1)) as [xj | |]; cbn [bind]; try reflexivity;
  destruct (yi =? 0)%num; try reflexivity;
  destruct (yi * yj <? 0)%num; try reflexivity.

Section FirstVariants.
Context {A : Type} `{Arith A}.

Lemma first_loop_AE_RMST (x y : list A) (idx : list Z) :
  zero_crossings_AE_RMST.first_loop x y idx = make_fig23.first_loop x y idx.
Proof.
  induction idx as [| i rest IH]; [reflexivity |].
  cbn [zero_crossings_AE_RMST.first_loop make_fig23.first_loop].
  loop_cases x y i; exact IH.
Qed.

Lemma first_loop_fig6 (x y : list A) (idx : list Z) :
  make_fig6.first_loop x y idx = make_fig23.first_loop x y idx.
Proof.
  induction idx as [| i rest IH]; [reflexivity |].
  cbn [make_fig6.first_loop make_fig23.first_loop].
  loop_cases x y i; exact IH.
Qed.

Lemma zc_loop_closeup (x y : list A) (idx : list Z) :
  zero_crossing_AE_closeup.zc_loop x y idx None
  = make_fig23.first_loop x y idx.
Proof.
  induction idx as [| i rest IH]; [reflexivity |].
  cbn [zero_crossing_AE_closeup.zc_loop make_fig23.first_loop].
  loop_cases x y i; exact IH.
Qed.

(** On any two arrays, of any lengths, the four scans have the same
    outcome, exceptions included. *)
Lemma first_variants_same_outcome (x y : list A) :
  zero_crossings_AE_RMST.first_zero_crossing_linear x y
  = make_fig23.first_zero_crossing_linear x y /\
  make_fig6.first_zero_crossing x y
  = make_fig23.first_zero_crossing_linear x y /\
  zero_crossing_AE_closeup.zc_scan x y
  = make_fig23.first_zero_crossing_linear x y.
Proof.
  split; [| split].
  - apply first_loop_AE_RMST.
  - apply first_loop_fig6.
  - apply zc_loop_closeup.
Qed.
End FirstVariants.

(** C10. The four FIRST implementations compute the same function: on
    every series they all return the same crossing abscissa, or all return
    [None]. *)
Theorem first_variants_agree {A : Type} `{ArithLaws A} (s : list (A * A)) :
  exists r : option A,
    zero_crossings_AE_RMST.first_zero_crossing_linear (xs s) (ys s) = Ok r /\
    make_fig23.first_zero_crossing_linear (xs s) (ys s) = Ok r /\
    make_fig6.first_zero_crossing (xs s) (ys s) = Ok r /\
    zero_crossing_AE_closeup.zc_scan (xs s) (ys s) = Ok r.
Proof.
  exists (first_x (scan_pairs s 0)).
  destruct (first_variants_same_outcome (xs s) (ys s)) as (E1 & E2 & E3).
  rewrite E1, E2, E3, first_series. repeat split.
Qed.

Lemma first_variants_agree_witness :
  let s := [(0, 3); (1, 1); (2, -1); (3, 2)]%float in
  exists r : option float,
    zero_crossings_AE_RMST.first_zero_crossing_linear (xs s) (ys s) = Ok r /\
    make_fig23.first_zero_crossing_linear (xs s) (ys s) = Ok r /\
    make_fig6.first_zero_crossing (xs s) (ys s) = Ok r /\
    zero_crossing_AE_closeup.zc_scan (xs s) (ys s) = Ok r.
Proof.
  exact (first_variants_agree (A := float)
           [(0, 3); (1, 1); (2, -1); (3, 2)]%float).
Defined.

(** ** Short series and the boundary example *)

(** With at most one ordinate the loops do not run: nothing is read, not
    even from an [x] of another length. *)
Lemma short_y_reads_nothing {A : Type} `{Arith A} (x y : list A) :
  (length y <= 1)%nat ->
  zero_crossings_linear_interp x y = Ok [] /\
  make_fig23.first_zero_crossing_linear x y = Ok None /\
  make_fig7.last_zero_crossing x y = Ok None.
Proof.
  intros Hlen.
  destruct y as [| a [| b l]]; [| | cbn in Hlen; lia];
    repeat split; reflexivity.
Qed.

(** C8. Short series.  On a series of length 0 or 1 every scan returns the
    empty list or [None]; none raises, in particular no index is out of
    range. *)
Theorem short_series_empty {A : Type} `{Arith A} (s : list (A * A)) :
  (length s <= 1)%nat ->
  zero_crossings_linear_interp (xs s) (ys s) = Ok [] /\
  zero_crossings_AE_RMST.first_zero_crossing_linear (xs s) (ys s) = Ok None /\
  make_fig23.first_zero_crossing_linear (xs s) (ys s) = Ok None /\
  make_fig6.first_zero_crossing (xs s) (ys s) = Ok None /\
  zero_crossing_AE_closeup.zc_scan (xs s) (ys s) = Ok None /\
  make_fig7.last_zero_crossing (xs s) (ys s) = Ok None.
Proof.
  intros Hlen.
  destruct s as [| p [| q post]]; [| | cbn in Hlen; lia];
    repeat split; reflexivity.
Qed.

Lemma short_series_empty_witness :
  let s := [(5, 0)]%Q in
  (length s <= 1)%nat /\
  zero_crossings_linear_interp (xs s) (ys s) = Ok [] /\
  zero_crossings_AE_RMST.first_zero_crossing_linear (xs s) (ys s) = Ok None /\
  make_fig23.first_zero_crossing_linear (xs s) (ys s) = Ok None /\
  make_fig6.first_zero_crossing (xs s) (ys s) = Ok None /\
  zero_crossing_AE_closeup.zc_scan (xs s) (ys s) = Ok None /\
  make_fig7.last_zero_crossing (xs s) (ys s) = Ok None.
Proof.
  split; [apply Nat.le_refl |].
  apply (short_series_empty (A := Q) [(5, 0)]%Q). apply Nat.le_refl.
Defined.

(** C4. Exact-zero boundary rule.  On the series [(0,-1), (1,0), (2,1)] the
    ALL scan returns exactly one crossing, at [x = 1] with segment index 1;
    segment 0 contributes nothing and segment 1 contributes the abscissa of
    the exact zero, not an interpolated point.  This holds on rationals and
    on binary64. *)
Theorem exact_zero_boundary :
  (let s := [(0, -1); (1, 0); (2, 1)]%Q in
   zero_crossings_linear_interp (xs s) (ys s) = Ok [(1%Q, 1%Z)] /\
   seg_crossing (0, -1)%Q (1, 0)%Q = None /\
   seg_crossing (1, 0)%Q (2, 1)%Q = Some 1%Q) /\
  (let s := [(0, -1); (1, 0); (2, 1)]%float in
   zero_crossings_linear_interp (xs s) (ys s) = Ok [(1%float, 1%Z)] /\
   seg_crossing (0, -1)%float (1, 0)%float = None /\
   seg_crossing (1, 0)%float (2, 1)%float = Some 1%float).
Proof.
  split; cbv zeta; repeat split; vm_compute; reflexivity.
Qed.

(** The alternating series of the specification, on binary64: three
    crossings, the first and the last picked by FIRST and LAST. *)
Lemma alternating_series_binary64 :
  let s := [(0, -2); (1, 2); (2, -2); (3, 2)]%float in
  zero_crossings_linear_interp (xs s) (ys s)
  = Ok [(0.5%float, 0%Z); (1.5%float, 1%Z); (2.5%float, 2%Z)] /\
  make_fig23.first_zero_crossing_linear (xs s) (ys s) = Ok (Some 0.5%float) /\
  make_fig7.last_zero_crossing (xs s) (ys s) = Ok (Some 2.5%float).
Proof.
  cbv zeta. repeat split; vm_compute; reflexivity.
Qed.

(** ** Exact zeros and absent results *)

Lemma scan_pairs_nil {A : Type} `{Arith A} (s : list (A * A)) (k0 : Z) :
  (forall (j : nat) (p q : A * A),
      nth_error s j = Some p -> nth_error s (S j) = Some q ->
      seg_crossing p q = None) ->
  scan_pairs s k0 = [].
Proof.
  intros Hnone. destruct (scan_pairs s k0) as [| [x0 i] l] eqn:E; [reflexivity |].
  assert (Hin : In (x0, i) (scan_pairs s k0)) by (rewrite E; now left).
  apply scan_pairs_In in Hin. destruct Hin as (j & p & q & _ & Hp & Hq & Hc).
  rewrite (Hnone j p q Hp Hq) in Hc. discriminate.
Qed.

(** C6, as the code has it.  An exactly-zero sample that is not the final
    sample of the series produces a crossing at its own abscissa, numbered
    by its own index. *)
Theorem exact_zero_reported {A : Type} `{ArithLaws A}
  (s : list (A * A)) (k : nat) (xi yi : A) :
  nth_error s k = Some (xi, yi) ->
  (S k < length s)%nat ->
  (yi =? 0)%num = true ->
  exists out,
    zero_crossings_linear_interp (xs s) (ys s) = Ok out /\
    In (xi, Z.of_nat k) out.
Proof.
  intros Hk Hlen Hz. exists (scan_pairs s 0). split; [apply all_series |].
  destruct (nth_error s (S k)) as [[xj yj] |] eqn:HSk.
  - apply scan_pairs_In. exists k, (xi, yi), (xj, yj).
    repeat split; try assumption.
    cbn [seg_crossing]. now rewrite Hz.
  - apply nth_error_None in HSk. lia.
Qed.

Lemma exact_zero_reported_witness :
  let s := [(0, -1); (1, 0); (2, 1)]%Q in
  nth_error s 1 = Some (1, 0)%Q /\
  (2 < length s)%nat /\
  ((0 : Q) =? 0)%num = true /\
  exists out,
    zero_crossings_linear_interp (xs s) (ys s) = Ok out /\
    In (1%Q, 1%Z) out.
Proof.
  cbv zeta.
  assert (H1 : nth_error [(0, -1); (1, 0); (2, 1)]%Q 1 = Some (1, 0)%Q)
    by reflexivity.
  assert (H2 : (2 < length [(0, -1); (1, 0); (2, 1)]%Q)%nat) by (cbn; lia).
  assert (H3 : ((0 : Q) =? 0)%num = true) by reflexivity.
  repeat split; try assumption.
  exact (exact_zero_reported (A := Q) _ 1 1%Q 0%Q H1 H2 H3).
Defined.

(** C6, as stated, fails: the final sample of [(0,1), (1,0)] is exactly
    zero and the ALL scan reports nothing, on rationals and on binary64. *)
Lemma final_zero_not_reported :
  (let s := [(0, 1); (1, 0)]%Q in
   nth_error s 1 = Some (1, 0)%Q /\ ((0 : Q) =? 0)%num = true /\
   zero_crossings_linear_interp (xs s) (ys s) = Ok []) /\
  (let s := [(0, 1); (1, 0)]%float in
   nth_error s 1 = Some (1, 0)%float /\ ((0 : float) =? 0)%num = true /\
   zero_crossings_linear_interp (xs s) (ys s) = Ok []).
Proof.
  split; cbv zeta; repeat split; vm_compute; reflexivity.
Qed.

(** C7, as the code has it.  When no two consecutive samples have strictly
    opposite signs and no sample other than the final one is exactly zero,
    every FIRST scan and the LAST scan return [None]. *)
Theorem no_crossing_gives_none {A : Type} `{ArithLaws A} (s : list (A * A)) :
  (forall (k : nat) (xi yi xj yj : A),
      nth_error s k = Some (xi, yi) -> nth_error s (S k) = Some (xj, yj) ->
      opposite_sign yi yj = false /\ (yi =? 0)%num = false) ->
  make_fig23.first_zero_crossing_linear (xs s) (ys s) = Ok None /\
  zero_crossings_AE_RMST.first_zero_crossing_linear (xs s) (ys s) = Ok None /\
  make_fig6.first_zero_crossing (xs s) (ys s) = Ok None /\
  zero_crossing_AE_closeup.zc_scan (xs s) (ys s) = Ok None /\
  make_fig7.last_zero_crossing (xs s) (ys s) = Ok None.
Proof.
  intros Hquiet.
  assert (Hnil : scan_pairs s 0 = []).
  { apply scan_pairs_nil. intros j [xi yi] [xj yj] Hp Hq.
    destruct (Hquiet j xi yi xj yj Hp Hq) as [Hopp Hnz].
    cbn [seg_crossing]. rewrite Hnz.
    destruct (yi * yj <? 0)%num eqn:Hflip; [| reflexivity].
    apply mul_neg_opposite in Hflip. congruence. }
  destruct (first_variants_same_outcome (xs s) (ys s)) as (E1 & E2 & E3).
  rewrite E1, E2, E3, first_series, last_series, Hnil.
  repeat split.
Qed.

Lemma no_crossing_gives_none_witness :
  let s := [(0, 1); (1, 2); (2, 0)]%Q in
  make_fig23.first_zero_crossing_linear (xs s) (ys s) = Ok None /\
  zero_crossings_AE_RMST.first_zero_crossing_linear (xs s) (ys s) = Ok None /\
  make_fig6.first_zero_crossing (xs s) (ys s) = Ok None /\
  zero_crossing_AE_closeup.zc_scan (xs s) (ys s) = Ok None /\
  make_fig7.last_zero_crossing (xs s) (ys s) = Ok None.
Proof.
  apply (no_crossing_gives_none (A := Q) [(0, 1); (1, 2); (2, 0)]%Q).
  intros k xi yi xj yj Hk HSk.
  destruct k as [| [| k]]; cbn in Hk, HSk.
  - inversion Hk; inversion HSk; subst. split; reflexivity.
  - inversion Hk; inversion HSk; subst. split; reflexivity.
  - destruct k; discriminate.
Defined.

(** C7, as stated, fails: [(0,0), (1,1)] has no sign change, and FIRST and
    LAST both answer the abscissa of the exactly-zero sample. *)
Lemma zero_sample_without_sign_change :
  (let s := [(0, 0); (1, 1)]%Q in
   opposite_sign (0 : Q) 1%Q = false /\
   make_fig23.first_zero_crossing_linear (xs s) (ys s) = Ok (Some 0%Q) /\
   make_fig7.last_zero_crossing (xs s) (ys s) = Ok (Some 0%Q)) /\
  (let s := [(0, 0); (1, 1)]%float in
   opposite_sign (0 : float) 1%float = false /\
   make_fig23.first_zero_crossing_linear (xs s) (ys s) = Ok (Some 0%float) /\
   make_fig7.last_zero_crossing (xs s) (ys s) = Ok (Some 0%float)).
Proof.
  split; cbv zeta; repeat split; vm_compute; reflexivity.
Qed.

(** ** Division safety *)

Lemma getitem_cases {T : Type} (a : list T) (i : Z) :
  (exists v, getitem a i = Ok v) \/ getitem a i = IndexError.
Proof.
  unfold getitem.
  destruct (_ && _)%bool; [| now right].
  destruct (nth_error a _) as [v |]; [left; now exists v | now right].
Qed.

(** Reads one array cell into [v]; an [IndexError] closes a goal of the
    form [_ <> ZeroDivisionError]. *)
Ltac read_cell a j v :=
  let E := fresh "E" in
  destruct (getitem_cases a j) as [[v E] | E]; rewrite E; cbn [bind];
  [| discriminate].

(** The four reads at the head of a loop body. *)
Ltac read_cells x y i yi yj xi xj :=
  read_cell y i yi; read_cell y (i + 1)%Z yj;
  read_cell x i xi; read_cell x (i + 1)%Z xj.

Section NoZeroDivision.
Context {A : Type} `{ArithLaws A}.

Lemma scan_loop_no_zero_division (x y : list A) (idx : list Z)
  (out : list (A * Z)) :
  scan_loop x y idx out <> ZeroDivisionError.
Proof.
  revert out. induction idx as [| i rest IH]; intros out; [discriminate |].
  cbn [scan_loop]. read_cells x y i yi yj xi xj.
  destruct (yi =? 0)%num; [apply IH |].
  destruct (yi * yj <? 0)%num eqn:Hflip; [| apply IH].
  destruct (divide_guarded ((xj - xi) * - yi)%num _ _ Hflip) as (d & _ & Hdiv).
  rewrite Hdiv. cbn [bind]. apply IH.
Qed.

Lemma first_loop_no_zero_division (x y : list A) (idx : list Z) :
  make_fig23.first_loop x y idx <> ZeroDivisionError.
Proof.
  induction idx as [| i rest IH]; [discriminate |].
  cbn [make_fig23.first_loop]. read_cells x y i yi yj xi xj.
  destruct (yi =? 0)%num; [discriminate |].
  destruct (yi * yj <? 0)%num eqn:Hflip; [| apply IH].
  destruct (divide_guarded ((xj - xi) * - yi)%num _ _ Hflip) as (d & _ & Hdiv).
  rewrite Hdiv. discriminate.
Qed.

Lemma last_loop_no_zero_division (x y : list A) (idx : list Z)
  (zc : option A) :
  make_fig7.last_loop x y idx zc <> ZeroDivisionError.
Proof.
  revert zc. induction idx as [| i rest IH]; intros zc; [discriminate |].
  cbn [make_fig7.last_loop]. read_cells x y i yi yj xi xj.
  destruct (yi =? 0)%num; [apply IH |].
  destruct (yi * yj <? 0)%num eqn:Hflip; [| apply IH].
  destruct (divide_guarded ((xj - xi) * - yi)%num _ _ Hflip) as (d & _ & Hdiv).
  rewrite Hdiv. cbn [bind]. apply IH.
Qed.

(** Whatever the two arrays, no scan ends in a division by zero. *)
Lemma no_zero_division (x y : list A) :
  zero_crossings_linear_interp x y <> ZeroDivisionError /\
  zero_crossings_AE_RMST.first_zero_crossing_linear x y <> ZeroDivisionError /\
  make_fig23.first_zero_crossing_linear x y <> ZeroDivisionError /\
  make_fig6.first_zero_crossing x y <> ZeroDivisionError /\
  zero_crossing_AE_closeup.zc_scan x y <> ZeroDivisionError /\
  make_fig7.last_zero_crossing x y <> ZeroDivisionError.
Proof.
  destruct (first_variants_same_outcome x y) as (E1 & E2 & E3).
  rewrite E1, E2, E3.
  split; [apply scan_loop_no_zero_division |].
  split; [apply first_loop_no_zero_division |].
  split; [apply first_loop_no_zero_division |].
  split; [apply first_loop_no_zero_division |].
  split; [apply first_loop_no_zero_division |].
  apply last_loop_no_zero_division.
Qed.
End NoZeroDivision.

(** On rationals a quotient by zero does raise: the model can fail. *)
Lemma divide_by_zero_raises : divide (1 : Q) (0 : Q) = ZeroDivisionError.
Proof. reflexivity. Qed.

(** With Python's raising division the loops run as with numpy's: the
    guard keeps every divisor away from zero. *)
Lemma scan_loop_strict (x y : list float) (idx : list Z) :
  forall acc,
    @scan_loop float python_float_arith x y idx acc = scan_loop x y idx acc.
Proof.
  induction idx as [| i rest IH]; intros acc; [reflexivity |].
  cbn [scan_loop].
  destruct (getitem y i) as [yi | |]; cbn [bind]; try reflexivity.
  destruct (getitem y (i + 1)) as [yj | |]; cbn [bind]; try reflexivity.
  destruct (getitem x i) as [xi | |]; cbn [bind]; try reflexivity.
  destruct (getitem x (i + 1)) as [xj | |]; cbn [bind]; try reflexivity.
  cbn [neqb nltb nmul nzero python_float_arith binary64_arith].
  destruct (PrimFloat.eqb yi PrimFloat.zero); [apply IH |].
  destruct (PrimFloat.ltb (PrimFloat.mul yi yj) PrimFloat.zero) eqn:Hflip;
    [| apply IH].
  unfold divide. cbn [ndiv nsub python_float_arith binary64_arith].
  rewrite (binary64_flip_denominator yi yj Hflip). cbn [bind]. apply IH.
Qed.

Lemma first_loop_strict (x y : list float) (idx : list Z) :
  @make_fig23.first_loop float python_float_arith x y idx
  = make_fig23.first_loop x y idx.
Proof.
  induction idx as [| i rest IH]; [reflexivity |].
  cbn [make_fig23.first_loop].
  destruct (getitem y i) as [yi | |]; cbn [bind]; try reflexivity.
  destruct (getitem y (i + 1)) as [yj | |]; cbn [bind]; try reflexivity.
  destruct (getitem x i) as [xi | |]; cbn [bind]; try reflexivity.
  destruct (getitem x (i + 1)) as [xj | |]; cbn [bind]; try reflexivity.
  cbn [neqb nltb nmul nzero python_float_arith binary64_arith].
  destruct (PrimFloat.eqb yi PrimFloat.zero); [reflexivity |].
  destruct (PrimFloat.ltb (PrimFloat.mul yi yj) PrimFloat.zero) eqn:Hflip;
    [| apply IH].
  unfold divide. cbn [ndiv nsub python_float_arith binary64_arith].
  rewrite (binary64_flip_denominator yi yj Hflip). reflexivity.
Qed.

Lemma last_loop_strict (x y : list float) (idx : list Z) :
  forall zc,
    @make_fig7.last_loop float python_float_arith x y idx zc
    = make_fig7.last_loop x y idx zc.
Proof.
  induction idx as [| i rest IH]; intros zc; [reflexivity |].
  cbn [make_fig7.last_loop].
  destruct (getitem y i) as [yi | |]; cbn [bind]; try reflexivity.
  destruct (getitem y (i + 1)) as [yj | |]; cbn [bind]; try reflexivity.
  destruct (getitem x i) as [xi | |]; cbn [bind]; try reflexivity.
  destruct (getitem x (i + 1)) as [xj | |]; cbn [bind]; try reflexivity.
  cbn [neqb nltb nmul nzero python_float_arith binary64_arith].
  destruct (PrimFloat.eqb yi PrimFloat.zero); [apply IH |].
  destruct (PrimFloat.ltb (PrimFloat.mul yi yj) PrimFloat.zero) eqn:Hflip;
    [| apply IH].
  unfold divide. cbn [ndiv nsub python_float_arith binary64_arith].
  rewrite (binary64_flip_denominator yi yj Hflip). cbn [bind]. apply IH.
Qed.

(** The raising division does raise on a zero divisor. *)
Lemma python_float_division_raises :
  @divide float python_float_arith 1%float 0%float = ZeroDivisionError.
Proof. reflexivity. Qed.

(** C9. Division safety, on binary64.  The quotient is only computed under
    the guard [y[i] * y[i+1] < 0]; the guard forces strictly opposite
    nonzero signs, hence a nonzero divisor [y[i+1] - y[i]]; so every scan,
    on any two arrays, run with a division that raises on a zero divisor,
    returns exactly what it returns with numpy's division and never raises
    [ZeroDivisionError]. *)
Theorem division_safe :
  (forall yi yj : float,
      (yi * yj <? 0)%num = true ->
      opposite_sign yi yj = true /\ (yj - yi =? 0)%num = false) /\
  (forall x y : list float,
      (@zero_crossings_linear_interp float python_float_arith x y
       = zero_crossings_linear_interp x y /\
       zero_crossings_linear_interp x y <> ZeroDivisionError) /\
      (@zero_crossings_AE_RMST.first_zero_crossing_linear
         float python_float_arith x y
       = zero_crossings_AE_RMST.first_zero_crossing_linear x y /\
       zero_crossings_AE_RMST.first_zero_crossing_linear x y
       <> ZeroDivisionError) /\
      (@make_fig23.first_zero_crossing_linear float python_float_arith x y
       = make_fig23.first_zero_crossing_linear x y /\
       make_fig23.first_zero_crossing_linear x y <> ZeroDivisionError) /\
      (@make_fig6.first_zero_crossing float python_float_arith x y
       = make_fig6.first_zero_crossing x y /\
       make_fig6.first_zero_crossing x y <> ZeroDivisionError) /\
      (@zero_crossing_AE_closeup.zc_scan float python_float_arith x y
       = zero_crossing_AE_closeup.zc_scan x y /\
       zero_crossing_AE_closeup.zc_scan x y <> ZeroDivisionError) /\
      (@make_fig7.last_zero_crossing float python_float_arith x y
       = make_fig7.last_zero_crossing x y /\
       make_fig7.last_zero_crossing x y <> ZeroDivisionError)).
Proof.
  split.
  - intros yi yj Hflip. split; [now apply mul_neg_opposite |].
    exact (binary64_flip_denominator yi yj Hflip).
  - intros x y.
    assert (Hfirst : @make_fig23.first_zero_crossing_linear
                       float python_float_arith x y
                     = make_fig23.first_zero_crossing_linear x y)
      by apply first_loop_strict.
    destruct (@first_variants_same_outcome float python_float_arith x y)
      as (S1 & S2 & S3).
    destruct (first_variants_same_outcome x y) as (E1 & E2 & E3).
    destruct (@no_zero_division float python_float_arith python_float_laws x y)
      as (Z1 & Z2 & Z3 & Z4 & Z5 & Z6).
    rewrite S1, S2, S3 in *. rewrite E1, E2, E3.
    assert (Hall : @zero_crossings_linear_interp float python_float_arith x y
                   = zero_crossings_linear_interp x y)
      by apply scan_loop_strict.
    assert (Hlast : @make_fig7.last_zero_crossing float python_float_arith x y
                    = make_fig7.last_zero_crossing x y)
      by apply last_loop_strict.
    rewrite Hfirst, Hall, Hlast in *.
    repeat split; assumption.
Qed.

(** ** Order of the crossings *)



Section OrderedCrossings.
Context {A : Type} {HA : Arith A} {HL : ArithLaws A} {HO : OrderLaws A}.



End OrderedCrossings.



(** On the failing series below the check fails: the crossing of segment
    0 is past [x[1]]. *)
Lemma rounding_leaves_segment :
  let s := [(0, -0.1); (3, 1e-18); (4, -0.1)]%float in
  forallb (interpolated_on_segment (xs s) (ys s))
          [(3.0000000000000004%float, 0%Z); (3%float, 1%Z)] = false.
Proof. vm_compute. reflexivity. Qed.



(** * Further properties of the scans *)

(** ** Arrays of different lengths *)

Section AnyArrays.
Context {A : Type} `{Arith A}.

(** When the ALL loop ends normally, FIRST and LAST over the same indices
    end normally too, on the head and on the last of what ALL appended. *)
Lemma loops_compose (x y : list A) (idx : list Z) :
  forall (acc out : list (A * Z)) (zc : option A),
    scan_loop x y idx acc = Ok out ->
    exists suf,
      out = acc ++ suf /\
      make_fig23.first_loop x y idx = Ok (first_x suf) /\
      make_fig7.last_loop x y idx zc
      = Ok (match last_x suf with Some v => Some v | None => zc end).
Proof.
  induction idx as [| i rest IH]; intros acc out zc Hall.
  - cbn in Hall. injection Hall as <-. exists []. now rewrite app_nil_r.
  - cbn [scan_loop make_fig23.first_loop make_fig7.last_loop] in *.
    destruct (getitem y i) as [yi | |]; cbn [bind] in *; try discriminate.
    destruct (getitem y (i + 1)) as [yj | |]; cbn [bind] in *; try discriminate.
    destruct (getitem x i) as [xi | |]; cbn [bind] in *; try discriminate.
    destruct (getitem x (i + 1)) as [xj | |]; cbn [bind] in *; try discriminate.
    destruct (yi =? 0)%num.
    + destruct (IH _ _ (Some xi) Hall) as (suf & -> & _ & Hlast).
      exists ((xi, i) :: suf). rewrite <- app_assoc.
      repeat split. now rewrite Hlast, last_x_cons.
    + destruct (yi * yj <? 0)%num.
      * destruct (divide ((xj - xi) * - yi)%num (yj - yi)%num) as [d | |];
          cbn [bind] in *; try discriminate.
        destruct (IH _ _ (Some (xi + d)%num) Hall) as (suf & -> & _ & Hlast).
        exists (((xi + d)%num, i) :: suf). rewrite <- app_assoc.
        repeat split. now rewrite Hlast, last_x_cons.
      * destruct (IH _ _ zc Hall) as (suf & -> & Hfirst & Hlast).
        exists suf. repeat split; assumption.
Qed.

(** The loops read [x] and [y] only through [getitem] at the visited
    indices and their successors. *)
Lemma scan_loop_ext (x x' y : list A) (idx : list Z) :
  (forall i, In i idx ->
             getitem x i = getitem x' i /\
             getitem x (i + 1) = getitem x' (i + 1)) ->
  forall acc, scan_loop x y idx acc = scan_loop x' y idx acc.
Proof.
  induction idx as [| i rest IH]; intros Hsame acc; [reflexivity |].
  cbn [scan_loop].
  destruct (Hsame i (or_introl eq_refl)) as [-> ->].
  assert (Hrest : forall acc', scan_loop x y rest acc' = scan_loop x' y rest acc').
  { apply IH. intros j Hj. apply Hsame. now right. }
  destruct (getitem y i) as [yi | |]; cbn [bind]; try reflexivity.
  destruct (getitem y (i + 1)) as [yj | |]; cbn [bind]; try reflexivity.
  destruct (getitem x' i) as [xi | |]; cbn [bind]; try reflexivity.
  destruct (getitem x' (i + 1)) as [xj | |]; cbn [bind]; try reflexivity.
  destruct (yi =? 0)%num; [apply Hrest |].
  destruct (yi * yj <? 0)%num; [| apply Hrest].
  destruct (divide _ _); cbn [bind]; try reflexivity. apply Hrest.
Qed.

Lemma first_loop_ext (x x' y : list A) (idx : list Z) :
  (forall i, In i idx ->
             getitem x i = getitem x' i /\
             getitem x (i + 1) = getitem x' (i + 1)) ->
  make_fig23.first_loop x y idx = make_fig23.first_loop x' y idx.
Proof.
  induction idx as [| i rest IH]; intros Hsame; [reflexivity |].
  cbn [make_fig23.first_loop].
  destruct (Hsame i (or_introl eq_refl)) as [-> ->].
  assert (Hrest : make_fig23.first_loop x y rest = make_fig23.first_loop x' y rest).
  { apply IH. intros j Hj. apply Hsame. now right. }
  destruct (getitem y i) as [yi | |]; cbn [bind]; try reflexivity.
  destruct (getitem y (i + 1)) as [yj | |]; cbn [bind]; try reflexivity.
  destruct (getitem x' i) as [xi | |]; cbn [bind]; try reflexivity.
  destruct (getitem x' (i + 1)) as [xj | |]; cbn [bind]; try reflexivity.
  destruct (yi =? 0)%num; [reflexivity |].
  destruct (yi * yj <? 0)%num; [reflexivity | apply Hrest].
Qed.

Lemma last_loop_ext (x x' y : list A) (idx : list Z) :
  (forall i, In i idx ->
             getitem x i = getitem x' i /\
             getitem x (i + 1) = getitem x' (i + 1)) ->
  forall zc, make_fig7.last_loop x y idx zc = make_fig7.last_loop x' y idx zc.
Proof.
  induction idx as [| i rest IH]; intros Hsame zc; [reflexivity |].
  cbn [make_fig7.last_loop].
  destruct (Hsame i (or_introl eq_refl)) as [-> ->].
  assert (Hrest : forall zc', make_fig7.last_loop x y rest zc'
                              = make_fig7.last_loop x' y rest zc').
  { apply IH. intros j Hj. apply Hsame. now right. }
  destruct (getitem y i) as [yi | |]; cbn [bind]; try reflexivity.
  destruct (getitem y (i + 1)) as [yj | |]; cbn [bind]; try reflexivity.
  destruct (getitem x' i) as [xi | |]; cbn [bind]; try reflexivity.
  destruct (getitem x' (i + 1)) as [xj | |]; cbn [bind]; try reflexivity.
  destruct (yi =? 0)%num; [apply Hrest |].
  destruct (yi * yj <? 0)%num; [| apply Hrest].
  destruct (divide _ _); cbn [bind]; try reflexivity. apply Hrest.
Qed.
End AnyArrays.

Lemma In_range (n i : Z) : In i (range n) <-> (0 <= i < n)%Z.
Proof.
  unfold range. rewrite in_map_iff. split.
  - intros (k & <- & Hk). apply in_seq in Hk. lia.
  - intros Hi. exists (Z.to_nat i). split; [lia |]. apply in_seq. lia.
Qed.

Lemma getitem_firstn {T : Type} (a : list T) (n : nat) (i : Z) :
  (0 <= i < Z.of_nat n)%Z -> (n <= length a)%nat ->
  getitem (firstn n a) i = getitem a i.
Proof.
  intros Hi Hn. unfold getitem. rewrite length_firstn, Nat.min_l by exact Hn.
  destruct (Z.ltb_spec i 0) as [Hneg | _]; [lia |].
  destruct (Z.leb_spec 0 i) as [_ | Hneg]; [| lia].
  destruct (Z.ltb_spec i (Z.of_nat n)) as [_ | Hge]; [| lia].
  destruct (Z.ltb_spec i (Z.of_nat (length a))) as [_ | Hge]; [| lia].
  cbn [andb]. rewrite nth_error_firstn.
  destruct (Nat.ltb_spec (Z.to_nat i) n) as [_ | Hge]; [reflexivity | lia].
Qed.

Lemma xs_combine {A : Type} (x y : list A) :
  (length y <= length x)%nat -> xs (combine x y) = firstn (length y) x.
Proof.
  revert y. induction x as [| a x IH]; intros [| b y] Hlen; cbn in *;
    try reflexivity; try lia.
  f_equal. apply IH. lia.
Qed.

Lemma ys_combine {A : Type} (x y : list A) :
  (length y <= length x)%nat -> ys (combine x y) = y.
Proof.
  revert y. induction x as [| a x IH]; intros [| b y] Hlen; cbn in *;
    try reflexivity; try lia.
  f_equal. apply IH. lia.
Qed.

Lemma getitem_out_of_range {T : Type} (a : list T) (i : Z) :
  (Z.of_nat (length a) <= i)%Z -> getitem a i = IndexError.
Proof.
  intros Hi. unfold getitem.
  destruct (Z.ltb_spec i 0) as [Hneg | _]; [lia |].
  destruct (Z.ltb_spec i (Z.of_nat (length a))) as [Hlt | _]; [lia |].
  now rewrite andb_false_r.
Qed.

(** A loop that ends normally has read [x[i+1]] at every index it was
    given. *)
Lemma scan_loop_reads {A : Type} `{Arith A} (x y : list A) (idx : list Z) :
  forall acc out,
    scan_loop x y idx acc = Ok out ->
    forall i, In i idx -> getitem x (i + 1) <> IndexError.
Proof.
  induction idx as [| i rest IH]; intros acc out Hall j Hj; [destruct Hj |].
  cbn [scan_loop] in Hall.
  destruct (getitem y i) as [yi | |]; cbn [bind] in Hall; try discriminate.
  destruct (getitem y (i + 1)) as [yj | |]; cbn [bind] in Hall; try discriminate.
  destruct (getitem x i) as [xi | |]; cbn [bind] in Hall; try discriminate.
  destruct (getitem x (i + 1)) as [xj | |] eqn:Hxj; cbn [bind] in Hall;
    try discriminate.
  destruct Hj as [<- | Hj]; [rewrite Hxj; discriminate |].
  destruct (yi =? 0)%num; [now apply (IH _ _ Hall) |].
  destruct (yi * yj <? 0)%num; [| now apply (IH _ _ Hall)].
  destruct (divide _ _); cbn [bind] in Hall; try discriminate.
  now apply (IH _ _ Hall).
Qed.

Lemma last_loop_reads {A : Type} `{Arith A} (x y : list A) (idx : list Z) :
  forall zc r,
    make_fig7.last_loop x y idx zc = Ok r ->
    forall i, In i idx -> getitem x (i + 1) <> IndexError.
Proof.
  induction idx as [| i rest IH]; intros zc r Hall j Hj; [destruct Hj |].
  cbn [make_fig7.last_loop] in Hall.
  destruct (getitem y i) as [yi | |]; cbn [bind] in Hall; try discriminate.
  destruct (getitem y (i + 1)) as [yj | |]; cbn [bind] in Hall; try discriminate.
  destruct (getitem x i) as [xi | |]; cbn [bind] in Hall; try discriminate.
  destruct (getitem x (i + 1)) as [xj | |] eqn:Hxj; cbn [bind] in Hall;
    try discriminate.
  destruct Hj as [<- | Hj]; [rewrite Hxj; discriminate |].
  destruct (yi =? 0)%num; [now apply (IH _ _ Hall) |].
  destruct (yi * yj <? 0)%num; [| now apply (IH _ _ Hall)].
  destruct (divide _ _); cbn [bind] in Hall; try discriminate.
  now apply (IH _ _ Hall).
Qed.

(** X1. On any two arrays, of any lengths: whenever the ALL scan returns a
    list, FIRST returns the abscissa of its head and LAST the abscissa of
    its last element ([None] when it is empty). *)
Theorem first_last_from_all {A : Type} `{Arith A} (x y : list A)
  (out : list (A * Z)) :
  zero_crossings_linear_interp x y = Ok out ->
  make_fig23.first_zero_crossing_linear x y
  = Ok (option_map fst (hd_error out)) /\
  make_fig7.last_zero_crossing x y
  = Ok (option_map fst (last_error out)).
Proof.
  intros Hall. unfold zero_crossings_linear_interp in Hall.
  destruct (loops_compose x y _ [] out None Hall) as (suf & Hout & Hfirst & Hlast).
  cbn [app] in Hout. subst suf. split; [exact Hfirst |].
  unfold make_fig7.last_zero_crossing, make_fig7.asarray. cbv zeta.
  rewrite Hlast. fold (last_x out). now destruct (last_x out).
Qed.

Lemma first_last_from_all_witness :
  let x := [0; 1; 2; 9; 9]%Q in
  let y := [-1; 0; 1]%Q in
  zero_crossings_linear_interp x y = Ok [(1%Q, 1%Z)] /\
  make_fig23.first_zero_crossing_linear x y = Ok (Some 1%Q) /\
  make_fig7.last_zero_crossing x y = Ok (Some 1%Q).
Proof.
  cbv zeta.
  assert (Hall : zero_crossings_linear_interp [0; 1; 2; 9; 9]%Q [-1; 0; 1]%Q
                 = Ok [(1%Q, 1%Z)]) by reflexivity.
  split; [exact Hall |].
  exact (first_last_from_all _ _ _ Hall).
Defined.

(** X2. When [x] has at least as many entries as [y], the entries of [x]
    beyond [len(y)] are never read: each scan behaves as on the series that
    pairs [x] and [y] position by position. *)
Theorem surplus_abscissas_ignored {A : Type} `{Arith A} (x y : list A) :
  (length y <= length x)%nat ->
  let s := combine x y in
  zero_crossings_linear_interp x y
  = zero_crossings_linear_interp (xs s) (ys s) /\
  make_fig23.first_zero_crossing_linear x y
  = make_fig23.first_zero_crossing_linear (xs s) (ys s) /\
  make_fig7.last_zero_crossing x y
  = make_fig7.last_zero_crossing (xs s) (ys s).
Proof.
  intros Hlen s. unfold s. rewrite xs_combine, ys_combine by exact Hlen.
  assert (Hsame : forall i, In i (range (len y - 1)) ->
            getitem x i = getitem (firstn (length y) x) i /\
            getitem x (i + 1) = getitem (firstn (length y) x) (i + 1)).
  { intros i Hi. apply In_range in Hi. unfold len in Hi.
    split; symmetry; apply getitem_firstn; (lia || exact Hlen). }
  split; [| split].
  - now apply scan_loop_ext.
  - now apply first_loop_ext.
  - unfold make_fig7.last_zero_crossing, make_fig7.asarray. cbv zeta.
    now apply last_loop_ext.
Qed.

Lemma surplus_abscissas_ignored_witness :
  let x := [0; 1; 2; 9; 9]%float in
  let y := [-1; 2; 1]%float in
  (length y <= length x)%nat /\
  let s := combine x y in
  zero_crossings_linear_interp x y
  = zero_crossings_linear_interp (xs s) (ys s) /\
  make_fig23.first_zero_crossing_linear x y
  = make_fig23.first_zero_crossing_linear (xs s) (ys s) /\
  make_fig7.last_zero_crossing x y
  = make_fig7.last_zero_crossing (xs s) (ys s).
Proof.
  cbv zeta.
  assert (Hlen : (length [-1; 2; 1]%float <= length [0; 1; 2; 9; 9]%float)%nat)
    by (cbn; lia).
  split; [exact Hlen |].
  exact (surplus_abscissas_ignored [0; 1; 2; 9; 9]%float [-1; 2; 1]%float Hlen).
Defined.

(** X3. When [x] is shorter than [y] and [y] has at least two entries, the
    ALL scan and the LAST scan raise [IndexError]: both visit every segment
    and read [x[i+1]] past the end of [x]. *)
Theorem short_abscissas_raise {A : Type} `{ArithLaws A} (x y : list A) :
  (length x < length y)%nat -> (2 <= length y)%nat ->
  zero_crossings_linear_interp x y = IndexError /\
  make_fig7.last_zero_crossing x y = IndexError.
Proof.
  intros Hshort Hy.
  set (i0 := Z.of_nat (length x - 1)).
  assert (Hin : In i0 (range (len y - 1))).
  { apply In_range. unfold len, i0. lia. }
  assert (Hread : getitem x (i0 + 1) = IndexError).
  { apply getitem_out_of_range. unfold i0. lia. }
  destruct (no_zero_division x y) as (Hall & _ & _ & _ & _ & Hlast).
  split.
  - destruct (zero_crossings_linear_interp x y) as [out | |] eqn:E;
      [| reflexivity | contradiction].
    exfalso. exact (scan_loop_reads x y _ _ _ E i0 Hin Hread).
  - destruct (make_fig7.last_zero_crossing x y) as [r | |] eqn:E;
      [| reflexivity | contradiction].
    exfalso. unfold make_fig7.last_zero_crossing, make_fig7.asarray in E.
    cbv zeta in E. exact (last_loop_reads x y _ _ _ E i0 Hin Hread).
Qed.

Lemma short_abscissas_raise_witness :
  let x := [0; 1]%Q in
  let y := [3; 1; -1]%Q in
  (length x < length y)%nat /\ (2 <= length y)%nat /\
  zero_crossings_linear_interp x y = IndexError /\
  make_fig7.last_zero_crossing x y = IndexError.
Proof.
  cbv zeta.
  assert (H1 : (length [0; 1]%Q < length [3; 1; -1]%Q)%nat) by (cbn; lia).
  assert (H2 : (2 <= length [3; 1; -1]%Q)%nat) by (cbn; lia).
  split; [exact H1 |]. split; [exact H2 |].
  exact (short_abscissas_raise (A := Q) [0; 1]%Q [3; 1; -1]%Q H1 H2).
Defined.

(** ** Order, position and number of the crossings *)

Lemma scan_pairs_sorted {A : Type} `{Arith A} (s : list (A * A)) (k0 : Z) :
  StronglySorted Z.lt (map snd (scan_pairs s k0)).
Proof.
  revert k0. induction s as [| p tl IH]; intros k0; [constructor |].
  destruct tl as [| q post]; [constructor |].
  rewrite scan_pairs_cons.
  destruct (seg_crossing p q) as [x0 |]; [| apply IH].
  cbn [map snd]. constructor; [apply IH |].
  apply Forall_forall. intros i Hi. apply in_map_iff in Hi.
  destruct Hi as (c & <- & Hc). apply scan_pairs_index_ge in Hc. lia.
Qed.

Lemma scan_pairs_length {A : Type} `{Arith A} (s : list (A * A)) (k0 : Z) :
  (length (scan_pairs s k0) <= length s - 1)%nat.
Proof.
  revert k0. induction s as [| p tl IH]; intros k0; [apply Nat.le_refl |].
  destruct tl as [| q post]; [apply Nat.le_refl |].
  rewrite scan_pairs_cons. specialize (IH (k0 + 1)%Z).
  destruct (seg_crossing p q); cbn [length] in *; lia.
Qed.

(** X4. The ALL scan lists its crossings by strictly increasing segment
    index, and returns at most [len - 1] of them. *)
Theorem crossings_in_scan_order {A : Type} `{ArithLaws A} (s : list (A * A)) :
  exists out,
    zero_crossings_linear_interp (xs s) (ys s) = Ok out /\
    StronglySorted Z.lt (map snd out) /\
    (length out <= length s - 1)%nat.
Proof.
  exists (scan_pairs s 0). split; [apply all_series |].
  split; [apply scan_pairs_sorted | apply scan_pairs_length].
Qed.

Lemma crossings_in_scan_order_witness :
  let s := [(0, -2); (1, 2); (2, -2); (3, 2)]%float in
  exists out,
    zero_crossings_linear_interp (xs s) (ys s) = Ok out /\
    StronglySorted Z.lt (map snd out) /\
    (length out <= length s - 1)%nat.
Proof.
  exact (crossings_in_scan_order (A := float)
           [(0, -2); (1, 2); (2, -2); (3, 2)]%float).
Defined.

(** ** When nothing is found *)

Lemma seg_crossing_None {A : Type} `{ArithLaws A} (xi yi xj yj : A) :
  seg_crossing (xi, yi) (xj, yj) = None <->
  (yi =? 0)%num = false /\ (yi * yj <? 0)%num = false.
Proof.
  cbn [seg_crossing]. destruct (yi =? 0)%num.
  - split; [discriminate | intros [E _]; discriminate].
  - destruct (yi * yj <? 0)%num eqn:Hflip.
    + destruct (divide_guarded ((xj - xi) * - yi)%num _ _ Hflip) as (d & Hd & _).
      rewrite Hd. split; [discriminate | intros [_ E]; discriminate].
    + split; [now intros _ | reflexivity].
Qed.

Lemma scan_pairs_nil_iff {A : Type} `{ArithLaws A} (s : list (A * A)) :
  scan_pairs s 0 = [] <->
  (forall (k : nat) (xi yi xj yj : A),
      nth_error s k = Some (xi, yi) -> nth_error s (S k) = Some (xj, yj) ->
      (yi =? 0)%num = false /\ (yi * yj <? 0)%num = false).
Proof.
  split.
  - intros Hnil k xi yi xj yj Hk HSk. apply (seg_crossing_None xi yi xj yj).
    destruct (seg_crossing (xi, yi) (xj, yj)) as [x0 |] eqn:Hc; [| reflexivity].
    apply (scan_pairs_segment s k _ _ x0 Hk HSk) in Hc.
    rewrite Hnil in Hc. destruct Hc.
  - intros Hquiet. apply scan_pairs_nil. intros j [xi yi] [xj yj] Hp Hq.
    apply (seg_crossing_None xi yi xj yj). exact (Hquiet j xi yi xj yj Hp Hq).
Qed.

(** X8. Absent result, exactly.  On a series, each of: ALL returns the
    empty list, FIRST returns [None], LAST returns [None], holds exactly
    when every segment [k] has [y[k] != 0] and not [y[k] * y[k+1] < 0]. *)
Theorem nothing_found_iff {A : Type} `{ArithLaws A} (s : list (A * A)) :
  let quiet :=
    forall (k : nat) (xi yi xj yj : A),
      nth_error s k = Some (xi, yi) -> nth_error s (S k) = Some (xj, yj) ->
      (yi =? 0)%num = false /\ (yi * yj <? 0)%num = false in
  (zero_crossings_linear_interp (xs s) (ys s) = Ok [] <-> quiet) /\
  (make_fig23.first_zero_crossing_linear (xs s) (ys s) = Ok None <-> quiet) /\
  (make_fig7.last_zero_crossing (xs s) (ys s) = Ok None <-> quiet).
Proof.
  intros quiet. unfold quiet.
  rewrite all_series, first_series, last_series, <- scan_pairs_nil_iff.
  split; [| split].
  - split; [intros E; now injection E | now intros ->].
  - split; [intros E; injection E as E; now apply first_x_None
           | now intros ->].
  - split; [intros E; injection E as E; now apply last_x_None
           | now intros ->].
Qed.

Lemma nothing_found_iff_witness :
  let s := [(0, 1); (1, 2); (2, 0)]%float in
  let quiet :=
    forall (k : nat) (xi yi xj yj : float),
      nth_error s k = Some (xi, yi) -> nth_error s (S k) = Some (xj, yj) ->
      (yi =? 0)%num = false /\ (yi * yj <? 0)%num = false in
  (zero_crossings_linear_interp (xs s) (ys s) = Ok [] <-> quiet) /\
  (make_fig23.first_zero_crossing_linear (xs s) (ys s) = Ok None <-> quiet) /\
  (make_fig7.last_zero_crossing (xs s) (ys s) = Ok None <-> quiet).
Proof.
  exact (nothing_found_iff (A := float) [(0, 1); (1, 2); (2, 0)]%float).
Defined.

(** ** Sub-series *)

Lemma nth_error_window {T : Type} (pre win post : list T) (j : nat) :
  (j < length win)%nat ->
  nth_error (pre ++ win ++ post) (length pre + j) = nth_error win j.
Proof.
  intros Hj. rewrite nth_error_app2 by lia.
  replace (length pre + j - length pre)%nat with j by lia.
  now apply nth_error_app1.
Qed.

(** X9. Crossings of a window.  For a contiguous window [win] of a series
    [pre ++ win ++ post], as cut by the close-up filters of [make_fig6.py]
    and [make_fig7.py]: the crossings ALL finds on the window alone are
    exactly the crossings it finds on the whole series at the segments of
    the window, renumbered by [len(pre)]. *)
Theorem window_crossings {A : Type} `{ArithLaws A}
  (pre win post : list (A * A)) :
  exists outw outf,
    zero_crossings_linear_interp (xs win) (ys win) = Ok outw /\
    zero_crossings_linear_interp (xs (pre ++ win ++ post))
                                 (ys (pre ++ win ++ post)) = Ok outf /\
    forall (x0 : A) (i : Z),
      In (x0, i) outw <->
      (0 <= i < len win - 1)%Z /\ In (x0, (i + len pre)%Z) outf.
Proof.
  exists (scan_pairs win 0), (scan_pairs (pre ++ win ++ post) 0).
  split; [apply all_series |]. split; [apply all_series |].
  intros x0 i. rewrite !scan_pairs_In. unfold len. split.
  - intros (j & p & q & -> & Hp & Hq & Hc).
    assert (HSj : (S j < length win)%nat) by (apply nth_error_Some; congruence).
    split; [lia |].
    exists (length pre + j)%nat, p, q.
    split; [lia |].
    split; [rewrite nth_error_window by lia; exact Hp |].
    split; [| exact Hc].
    replace (S (length pre + j)) with (length pre + S j)%nat by lia.
    rewrite nth_error_window by lia. exact Hq.
  - intros (Hi & j & p & q & Hj & Hp & Hq & Hc).
    assert (Ej : j = (length pre + Z.to_nat i)%nat) by lia. subst j.
    replace (S (length pre + Z.to_nat i))
      with (length pre + S (Z.to_nat i))%nat in Hq by lia.
    rewrite nth_error_window in Hp, Hq by lia.
    exists (Z.to_nat i), p, q. repeat split; try assumption. lia.
Qed.

Lemma window_crossings_witness :
  let pre := [(0, 3); (1, 2)]%Q in
  let win := [(2, 1); (3, -1); (4, -2)]%Q in
  let post := [(5, 4)]%Q in
  exists outw outf,
    zero_crossings_linear_interp (xs win) (ys win) = Ok outw /\
    zero_crossings_linear_interp (xs (pre ++ win ++ post))
                                 (ys (pre ++ win ++ post)) = Ok outf /\
    forall (x0 : Q) (i : Z),
      In (x0, i) outw <->
      (0 <= i < len win - 1)%Z /\ In (x0, (i + len pre)%Z) outf.
Proof.
  exact (window_crossings (A := Q) [(0, 3); (1, 2)]%Q
           [(2, 1); (3, -1); (4, -2)]%Q [(5, 4)]%Q).
Defined.

(** ** Samples that are neither positive nor negative *)

(** X10. A segment that starts on a nonzero sample and ends on a sample
    that is neither below nor above zero (an exact zero, or a NaN) has no
    crossing: a zero sample is reported by the segment it starts, never by
    the segment it ends. *)
Theorem flat_end_no_crossing {A : Type} `{ArithLaws A}
  (s : list (A * A)) (k : nat) (xi yi xj yj : A) :
  nth_error s k = Some (xi, yi) -> nth_error s (S k) = Some (xj, yj) ->
  (yi =? 0)%num = false ->
  (yj <? 0)%num = false -> (0 <? yj)%num = false ->
  exists out,
    zero_crossings_linear_interp (xs s) (ys s) = Ok out /\
    forall x0, ~ In (x0, Z.of_nat k) out.
Proof.
  intros Hk HSk Hnz Hneg Hpos. exists (scan_pairs s 0).
  split; [apply all_series |].
  intros x0 Hin. apply (scan_pairs_segment s k _ _ x0 Hk HSk) in Hin.
  assert (Hnone : seg_crossing (xi, yi) (xj, yj) = None); [| congruence].
  apply (seg_crossing_None xi yi xj yj). split; [exact Hnz |].
  destruct (yi * yj <? 0)%num eqn:Hflip; [| reflexivity].
  apply mul_neg_opposite in Hflip. unfold opposite_sign in Hflip.
  rewrite Hneg, Hpos, !andb_false_r in Hflip. discriminate.
Qed.

Lemma flat_end_no_crossing_witness :
  let s := [(0, -1); (1, 0); (2, 1)]%float in
  exists out,
    zero_crossings_linear_interp (xs s) (ys s) = Ok out /\
    forall x0, ~ In (x0, 0%Z) out.
Proof.
  exact (flat_end_no_crossing (A := float) [(0, -1); (1, 0); (2, 1)]%float
           0 0%float (-1)%float 1%float 0%float
           eq_refl eq_refl eq_refl eq_refl eq_refl).
Defined.

Lemma is_nan_spec (v : float) :
  PrimFloat.is_nan v = true -> Prim2SF v = S754_nan.
Proof.
  unfold PrimFloat.is_nan. rewrite eqb_spec. unfold SFeqb.
  intros Hnan.
  destruct (Prim2SF v) as [sx | sx | | sx mx ex] eqn:E; [| | reflexivity |];
    rewrite SF_compare_refl in Hnan by discriminate; discriminate.
Qed.

(** X11. On binary64 a NaN ordinate silences its segments: segment [k] has
    no crossing when [y[k]] is NaN, nor when [y[k+1]] is NaN and [y[k]] is
    not zero. *)
Theorem nan_sample_no_crossing
  (s : list (float * float)) (k : nat) (xi yi xj yj : float) :
  nth_error s k = Some (xi, yi) -> nth_error s (S k) = Some (xj, yj) ->
  PrimFloat.is_nan yi = true \/
  (PrimFloat.is_nan yj = true /\ (yi =? 0)%num = false) ->
  exists out,
    zero_crossings_linear_interp (xs s) (ys s) = Ok out /\
    forall x0, ~ In (x0, Z.of_nat k) out.
Proof.
  intros Hk HSk Hnan. exists (scan_pairs s 0).
  split; [apply all_series |].
  intros x0 Hin. apply (scan_pairs_segment s k _ _ x0 Hk HSk) in Hin.
  assert (Hnone : seg_crossing (xi, yi) (xj, yj) = None); [| congruence].
  apply (seg_crossing_None xi yi xj yj).
  cbn [neqb nltb nmul nzero binary64_arith].
  rewrite eqb_spec, ltb_spec, mul_spec.
  destruct Hnan as [Hi | [Hj Hnz]].
  - apply is_nan_spec in Hi. rewrite Hi. split; reflexivity.
  - apply is_nan_spec in Hj. rewrite Hj.
    cbn [neqb nzero binary64_arith] in Hnz. rewrite eqb_spec in Hnz.
    split; [exact Hnz |].
    destruct (Prim2SF yi); reflexivity.
Qed.

Lemma nan_sample_no_crossing_witness :
  let s := [(0, -1); (1, nan); (2, 1)]%float in
  (exists out,
      zero_crossings_linear_interp (xs s) (ys s) = Ok out /\
      forall x0, ~ In (x0, 0%Z) out) /\
  (exists out,
      zero_crossings_linear_interp (xs s) (ys s) = Ok out /\
      forall x0, ~ In (x0, 1%Z) out).
Proof.
  cbv zeta. split.
  - exact (nan_sample_no_crossing [(0, -1); (1, nan); (2, 1)]%float
             0 0%float (-1)%float 1%float nan eq_refl eq_refl
             (or_intror (conj eq_refl eq_refl))).
  - exact (nan_sample_no_crossing [(0, -1); (1, nan); (2, 1)]%float
             1 1%float nan 2%float 1%float eq_refl eq_refl
             (or_introl eq_refl)).
Defined.
